(** * Commander finite state machine (art_nav/src/commander/FSM.cc)

    A shallow embedding of [CmdrFSM]: the transition table built by the
    constructor, the event prioritisation of [current_event], the action
    methods and the dispatcher [control].

    The FSM talks to a [Commander] object through a pointer.  The embedding
    keeps the pointee inside the FSM record and threads it through every
    call.  The Commander class, the identifier type and the message types
    come from other headers (command.h, State.h, the art_nav messages); they
    enter as an interface ([Collaborators]) whose operations are arbitrary
    state transformers.  Logging ([logc], [verbose]) has no effect on the
    control flow and is left out. *)

From stdpp Require Import prelude strings.
From Stdlib Require Import ZArith QArith Qabs Lia.

Open Scope Z_scope.

(** ** Enumerations *)

(** Modelled from the spec: State.h (the [CmdrEvent] and [CmdrState] classes)
    is missing; the spec lists the events {None, Wait, EnterLane, Replan,
    Blocked, Done, Fail} and the states {Init, Road, Done}.  The order of the
    constructors is the order in which the constructor of [CmdrFSM] installs
    the rows and columns of the table. *)
Module CmdrEvent.
Inductive event_t := Blocked | Done | EnterLane | Fail | None | Wait | Replan.
End CmdrEvent.

Module CmdrState.
Inductive state_t := Done | Init | Road.
End CmdrState.

(** Modelled from the spec: the [art_nav::Behavior] message is missing; the
    spec names the behaviours Initialize, Go, Quit and Abort. *)
Module Behavior.
Inductive value_type := Abort | Quit | Go | Initialize.
End Behavior.

#[global] Instance event_eq_dec : EqDecision CmdrEvent.event_t.
Proof. solve_decision. Defined.

#[global] Instance state_eq_dec : EqDecision CmdrState.state_t.
Proof. solve_decision. Defined.

#[global] Instance behavior_eq_dec : EqDecision Behavior.value_type.
Proof. solve_decision. Defined.

(** Modelled from the spec: the [art_nav::Order] message is missing; the spec
    describes it as a behaviour selector. *)
Record Order := { behavior : Behavior.value_type }.

(** The action methods, as the targets of the method pointers stored in the
    transition table ([&CmdrFSM::ActionError] and so on). *)
Module Action.
Inductive action_t :=
| ActionError | ActionFail | ActionWait
| ActionInDone | ActionInInit | ActionInRoad
| ActionToDone | ActionToRoad
| BlockedInRoad | ReplanInRoad | InitToRoad.
End Action.

#[global] Instance action_eq_dec : EqDecision Action.action_t.
Proof. solve_decision. Defined.

(** ** The transition table *)

(** [transtion_t] of FSM.h (the spelling is the header's). *)
Record transtion_t := {
  next : CmdrState.state_t;
  action : Action.action_t
}.

(** [ttable[event][state]]. *)
Definition ttable_t := CmdrEvent.event_t -> CmdrState.state_t -> transtion_t.

(** The two nested loops at the head of the constructor: every cell gets
    [ActionError] and stays in its own state. *)
Definition ttable_init : ttable_t :=
  fun _event state => {| next := state; action := Action.ActionError |}.

(** [CmdrFSM::Add]: overwrite the cell [ttable[event][from_state]]. *)
Definition Add (event : CmdrEvent.event_t) (act : Action.action_t)
    (from_state to_state : CmdrState.state_t) (tt : ttable_t) : ttable_t :=
  fun e s =>
    if decide (e = event) then
      if decide (s = from_state) then {| next := to_state; action := act |}
      else tt e s
    else tt e s.

(** The [Add] calls of the constructor, in source order. *)
Definition ttable_adds : list (ttable_t -> ttable_t) :=
  [ Add CmdrEvent.Blocked Action.ActionInDone CmdrState.Done CmdrState.Done;
    Add CmdrEvent.Blocked Action.ActionInInit CmdrState.Init CmdrState.Init;
    Add CmdrEvent.Blocked Action.BlockedInRoad CmdrState.Road CmdrState.Road;

    Add CmdrEvent.Done Action.ActionInDone CmdrState.Done CmdrState.Done;
    Add CmdrEvent.Done Action.ActionToDone CmdrState.Init CmdrState.Done;
    Add CmdrEvent.Done Action.ActionToDone CmdrState.Road CmdrState.Done;

    Add CmdrEvent.EnterLane Action.ActionInDone CmdrState.Done CmdrState.Done;
    Add CmdrEvent.EnterLane Action.InitToRoad CmdrState.Init CmdrState.Road;
    Add CmdrEvent.EnterLane Action.ActionInRoad CmdrState.Road CmdrState.Road;

    Add CmdrEvent.Fail Action.ActionInDone CmdrState.Done CmdrState.Done;
    Add CmdrEvent.Fail Action.ActionFail CmdrState.Init CmdrState.Done;
    Add CmdrEvent.Fail Action.ActionFail CmdrState.Road CmdrState.Done;

    Add CmdrEvent.None Action.ActionInDone CmdrState.Done CmdrState.Done;
    Add CmdrEvent.None Action.ActionInInit CmdrState.Init CmdrState.Init;
    Add CmdrEvent.None Action.ActionInRoad CmdrState.Road CmdrState.Road;

    Add CmdrEvent.Wait Action.ActionInDone CmdrState.Done CmdrState.Done;
    Add CmdrEvent.Wait Action.ActionInInit CmdrState.Init CmdrState.Init;
    Add CmdrEvent.Wait Action.ActionWait CmdrState.Road CmdrState.Road;

    Add CmdrEvent.Replan Action.ActionInDone CmdrState.Done CmdrState.Done;
    Add CmdrEvent.Replan Action.ActionInInit CmdrState.Init CmdrState.Init;
    Add CmdrEvent.Replan Action.ReplanInRoad CmdrState.Road CmdrState.Road ].

(** The table as the constructor leaves it: the defaults, then each [Add]
    applied in turn. *)
Definition ttable : ttable_t :=
  fold_left (fun tt add => add tt) ttable_adds ttable_init.

(** ** Calls into the Commander *)

(** The Commander methods the FSM invokes.  The embedding appends one entry
    per invocation to a ghost log, so that a property can speak of which
    calls a cycle makes and how often. *)
Inductive cmdr_call :=
| call_next_checkpoint
| call_replan_route
| call_prepare_order (b : Behavior.value_type).

#[global] Instance cmdr_call_eq_dec : EqDecision cmdr_call.
Proof. solve_decision. Defined.

(** Number of entries of [l] equal to [c]. *)
Definition count_call (c : cmdr_call) (l : list cmdr_call) : nat :=
  length (filter (fun x => x = c) l).

(** ** Faults *)

(** [std::out_of_range] is what [route->at(0)] throws on an empty route;
    [pop_front_empty] marks a [pop_front] on an empty route, which the C++
    standard leaves undefined. *)
Inductive fault := out_of_range | pop_front_empty.

Inductive result (A : Type) :=
| Ok (a : A)
| Raise (e : fault).
Arguments Ok {A} a.
Arguments Raise {A} e.

#[global] Instance result_ret : MRet result := fun A a => Ok a.

#[global] Instance result_bind : MBind result := fun A B k r =>
  match r with
  | Ok a => k a
  | Raise e => Raise e
  end.

(** ** Data *)

Section Data.
(** Modelled from the spec: the [ElementID] class is missing; the spec
    describes it as an opaque, equality-comparable waypoint name.
    [Mission] stands for whatever else the Commander owns (the checkpoint
    sequence, its own view of the navigator state, its order buffer). *)
Context {ElementID Mission : Type}.

(** Modelled from the spec: [WayPointNode] and [WayPointEdge] are declared
    in the road-network headers, which are missing; the FSM reads the
    node's [id] and the edge's two node indices. *)
Record WayPointNode := {
  id : ElementID;
  index : Z
}.

Record WayPointEdge := {
  startnode_index : Z;
  endnode_index : Z
}.

(** Modelled from the spec: [WaypointGraph.lookupNodeByIndex(index)] yields
    a node or not-found ([NULL] in the source). *)
Definition Graph := Z -> option WayPointNode.

Definition get_node_by_index (graph : Graph) (i : Z) : option WayPointNode :=
  graph i.

(** Modelled from the spec: the [art_nav::NavigatorState] message is
    missing; the FSM reads the last reported waypoint, the waypoint
    requesting a new plan and the road-blocked flag. *)
Record NavigatorState := {
  last_waypt : ElementID;
  replan_waypt : ElementID;
  road_blocked : bool
}.

(** The members of [Commander] that the FSM touches directly, and the
    rest of the object. *)
Record Commander := {
  route : list WayPointEdge;
  graph : Graph;
  goal : WayPointNode;
  goal2 : WayPointNode;
  blockages : list ElementID;
  mission : Mission
}.

(** The data members of [CmdrFSM] (FSM.h) other than the table, with the
    Commander behind [cmdr] and the ghost log of the calls made to it. *)
Record CmdrFSM := {
  current_way : ElementID;
  cmdr : Commander;
  navstate : NavigatorState;
  prev : CmdrState.state_t;
  state : CmdrState.state_t;
  old_replan : ElementID;
  calls : list cmdr_call
}.

(** *** Field updates *)

Definition set_route (r : list WayPointEdge) (c : Commander) : Commander :=
  {| route := r; graph := graph c; goal := goal c; goal2 := goal2 c;
     blockages := blockages c; mission := mission c |}.

(** Modelled from the spec: [BlockageSet.add(waypoint)] marks a waypoint
    as obstructed. *)
Definition add_block (w : ElementID) (c : Commander) : Commander :=
  {| route := route c; graph := graph c; goal := goal c; goal2 := goal2 c;
     blockages := w :: blockages c; mission := mission c |}.

Definition set_last_waypt (w : ElementID) (n : NavigatorState) : NavigatorState :=
  {| last_waypt := w; replan_waypt := replan_waypt n;
     road_blocked := road_blocked n |}.

Definition set_current_way (w : ElementID) (f : CmdrFSM) : CmdrFSM :=
  {| current_way := w; cmdr := cmdr f; navstate := navstate f;
     prev := prev f; state := state f; old_replan := old_replan f;
     calls := calls f |}.

Definition set_cmdr (c : Commander) (f : CmdrFSM) : CmdrFSM :=
  {| current_way := current_way f; cmdr := c; navstate := navstate f;
     prev := prev f; state := state f; old_replan := old_replan f;
     calls := calls f |}.

Definition set_navstate (n : NavigatorState) (f : CmdrFSM) : CmdrFSM :=
  {| current_way := current_way f; cmdr := cmdr f; navstate := n;
     prev := prev f; state := state f; old_replan := old_replan f;
     calls := calls f |}.

Definition set_prev (s : CmdrState.state_t) (f : CmdrFSM) : CmdrFSM :=
  {| current_way := current_way f; cmdr := cmdr f; navstate := navstate f;
     prev := s; state := state f; old_replan := old_replan f;
     calls := calls f |}.

Definition set_state (s : CmdrState.state_t) (f : CmdrFSM) : CmdrFSM :=
  {| current_way := current_way f; cmdr := cmdr f; navstate := navstate f;
     prev := prev f; state := s; old_replan := old_replan f;
     calls := calls f |}.

Definition set_old_replan (w : ElementID) (f : CmdrFSM) : CmdrFSM :=
  {| current_way := current_way f; cmdr := cmdr f; navstate := navstate f;
     prev := prev f; state := state f; old_replan := w;
     calls := calls f |}.

Definition log_call (c : cmdr_call) (f : CmdrFSM) : CmdrFSM :=
  {| current_way := current_way f; cmdr := cmdr f; navstate := navstate f;
     prev := prev f; state := state f; old_replan := old_replan f;
     calls := calls f ++ [c] |}.
End Data.

Arguments WayPointNode : clear implicits.
Arguments Graph : clear implicits.
Arguments NavigatorState : clear implicits.
Arguments Commander : clear implicits.
Arguments CmdrFSM : clear implicits.

(** ** The interface of the missing classes *)

(** What the FSM needs from [ElementID] and from [Commander]:
    - equality on identifiers ([operator==], [operator!=]);
    - [ElementID_null], the value of the default constructor [ElementID()];
    - [next_checkpoint], [replan_route] and [prepare_order], the Commander
      methods, each free to change the Commander in any way. *)
Class Collaborators (ElementID Mission : Type) := {
  ElementID_eq_dec :: EqDecision ElementID;
  ElementID_null : ElementID;
  next_checkpoint :
    Commander ElementID Mission -> bool * Commander ElementID Mission;
  replan_route :
    Commander ElementID Mission -> bool * Commander ElementID Mission;
  prepare_order :
    Behavior.value_type -> Commander ElementID Mission ->
    Order * Commander ElementID Mission
}.

(** ** The FSM *)

Section FSM.
Context {ElementID Mission : Type} {api : Collaborators ElementID Mission}.

#[local] Abbreviation FSM := (CmdrFSM ElementID Mission).
#[local] Abbreviation Edge := WayPointEdge.

(** *** Calls through [cmdr] *)

(** [cmdr->next_checkpoint()]. *)
Definition cmdr_next_checkpoint (f : FSM) : bool * FSM :=
  let '(more, c) := next_checkpoint (cmdr f) in
  (more, log_call call_next_checkpoint (set_cmdr c f)).

(** [cmdr->replan_route()]. *)
Definition cmdr_replan_route (f : FSM) : bool * FSM :=
  let '(ok, c) := replan_route (cmdr f) in
  (ok, log_call call_replan_route (set_cmdr c f)).

(** [cmdr->prepare_order(b)]. *)
Definition cmdr_prepare_order (b : Behavior.value_type) (f : FSM) : Order * FSM :=
  let '(o, c) := prepare_order b (cmdr f) in
  (o, log_call (call_prepare_order b) (set_cmdr c f)).

(** *** Action methods *)

Definition ActionFail (event : CmdrEvent.event_t) (f : FSM) : Order * FSM :=
  ({| behavior := Behavior.Abort |}, f).

Definition ActionError (event : CmdrEvent.event_t) (f : FSM) : Order * FSM :=
  ActionFail event f.

Definition ActionWait (event : CmdrEvent.event_t) (f : FSM) : Order * FSM :=
  cmdr_prepare_order Behavior.Go f.

Definition ActionInDone (event : CmdrEvent.event_t) (f : FSM) : Order * FSM :=
  ({| behavior := Behavior.Quit |}, f).

Definition ActionInInit (event : CmdrEvent.event_t) (f : FSM) : Order * FSM :=
  ({| behavior := Behavior.Initialize |}, f).

Definition ActionInRoad (event : CmdrEvent.event_t) (f : FSM) : Order * FSM :=
  cmdr_prepare_order Behavior.Go f.

Definition ActionToDone (event : CmdrEvent.event_t) (f : FSM) : Order * FSM :=
  ActionInDone event f.

Definition ActionToRoad (event : CmdrEvent.event_t) (f : FSM) : Order * FSM :=
  ActionInRoad event f.

Definition BlockedInRoad (event : CmdrEvent.event_t) (f : FSM) : Order * FSM :=
  let f := set_cmdr (add_block (replan_waypt (navstate f)) (cmdr f)) f in
  let '(ok, f) := cmdr_replan_route f in
  if bool_decide (ok = false) then ActionWait event f
  else ActionInRoad event f.

Definition ReplanInRoad (event : CmdrEvent.event_t) (f : FSM) : Order * FSM :=
  let f :=
    set_navstate (set_last_waypt (replan_waypt (navstate f)) (navstate f)) f in
  let '(ok, f) := cmdr_replan_route f in
  if bool_decide (ok = false) then ActionWait event f
  else ActionInRoad event f.

Definition InitToRoad (event : CmdrEvent.event_t) (f : FSM) : Order * FSM :=
  let '(ok, f) := cmdr_replan_route f in
  if bool_decide (ok = false) then ActionFail event f
  else ActionInRoad event f.

(** [(this->*action)(event)]: call through a method pointer. *)
Definition invoke (a : Action.action_t) : CmdrEvent.event_t -> FSM -> Order * FSM :=
  match a with
  | Action.ActionError => ActionError
  | Action.ActionFail => ActionFail
  | Action.ActionWait => ActionWait
  | Action.ActionInDone => ActionInDone
  | Action.ActionInInit => ActionInInit
  | Action.ActionInRoad => ActionInRoad
  | Action.ActionToDone => ActionToDone
  | Action.ActionToRoad => ActionToRoad
  | Action.BlockedInRoad => BlockedInRoad
  | Action.ReplanInRoad => ReplanInRoad
  | Action.InitToRoad => InitToRoad
  end.

(** *** [current_event]: walking the plan *)

(** The two tests that follow every assignment to [current_way]. *)
Definition passed_goal (way goal_id : ElementID) (flag : bool) : bool :=
  if decide (way = goal_id) then true else flag.

(** How the [do ... while] loop ends:
    - [walk_exit]: the loop condition turned false;
    - [walk_miss]: [get_node_by_index] returned [NULL] for a start node;
    - [walk_fault]: an access to the route was out of bounds.
    Each carries the values of the variables the loop has written. *)
Inductive walk_t :=
| walk_exit (rt : list Edge) (first_edge : Edge) (way : ElementID)
    (new_goal1 new_goal2 : bool)
| walk_miss (idx : Z) (rt : list Edge) (way : ElementID)
| walk_fault (e : fault).

(** The [do ... while] loop.  [rt] is [*cmdr->route] and [way] is
    [current_way] on entry to the body; [last] is
    [ElementID(navstate.last_waypt)].  The body removes one edge of [rt],
    so the recursion is structural on it. *)
Fixpoint walk_loop (g : Graph ElementID) (goal_id goal2_id last : ElementID)
    (rt : list Edge) (way : ElementID) (new_goal1 new_goal2 : bool) : walk_t :=
  match rt with
  | [] => walk_fault pop_front_empty
  | _ :: rt' =>
      match rt' with
      | [] => walk_fault out_of_range
      | first_edge :: _ =>
          match get_node_by_index g (startnode_index first_edge) with
          | None => walk_miss (startnode_index first_edge) rt' way
          | Some current_node =>
              let way' := id current_node in
              let new_goal1' := passed_goal way' goal_id new_goal1 in
              let new_goal2' := passed_goal way' goal2_id new_goal2 in
              if bool_decide (last ≠ way') && bool_decide (1 < length rt')%nat
              then walk_loop g goal_id goal2_id last rt' way' new_goal1' new_goal2'
              else walk_exit rt' first_edge way' new_goal1' new_goal2'
          end
      end
  end.

(** What the block guarded by [ElementID(navstate.last_waypt) !=
    current_way] leaves behind:
    - [tracked]: control reaches [bool finished=false], with the two flags;
    - [lookup_failed]: one of the two [return CmdrEvent::Fail], with the
      index that was not found. *)
Inductive progress :=
| tracked (new_goal1 new_goal2 : bool) (f : FSM)
| lookup_failed (idx : Z) (f : FSM).

Definition track_progress (f : FSM) : result progress :=
  let last := last_waypt (navstate f) in
  let c := cmdr f in
  if decide (last ≠ current_way f) then
    match walk_loop (graph c) (id (goal c)) (id (goal2 c)) last
            (route c) (current_way f) false false with
    | walk_fault e => Raise e
    | walk_miss idx rt way =>
        Ok (lookup_failed idx (set_current_way way (set_cmdr (set_route rt c) f)))
    | walk_exit rt first_edge way new_goal1 new_goal2 =>
        let f := set_current_way way (set_cmdr (set_route rt c) f) in
        if decide (last ≠ way) then
          match get_node_by_index (graph c) (endnode_index first_edge) with
          | None => Ok (lookup_failed (endnode_index first_edge) f)
          | Some current_node =>
              let way' := id current_node in
              Ok (tracked (passed_goal way' (id (goal c)) new_goal1)
                          (passed_goal way' (id (goal2 c)) new_goal2)
                          (set_current_way way' f))
          end
        else Ok (tracked new_goal1 new_goal2 f)
    end
  else Ok (tracked false false f).

(** *** [current_event]: ticking off checkpoints *)

(** [if (new_goal1) finished = !cmdr->next_checkpoint();
    if (new_goal1 && new_goal2) finished = !cmdr->next_checkpoint();] *)
Definition advance_checkpoints (new_goal1 new_goal2 : bool) (f : FSM) : bool * FSM :=
  let '(finished, f) :=
    if new_goal1 then
      let '(more, f) := cmdr_next_checkpoint f in (negb more, f)
    else (false, f) in
  if new_goal1 && new_goal2 then
    let '(more, f) := cmdr_next_checkpoint f in (negb more, f)
  else (finished, f).

(** *** [current_event]: choosing the event *)

(** The [if ... else if ... else if] chain after [CmdrEvent
    event(CmdrEvent::None)]. *)
Definition select_event (finished new_goal1 : bool) (f : FSM) : CmdrEvent.event_t * FSM :=
  if finished then (CmdrEvent.Done, f)
  else if decide (replan_waypt (navstate f) ≠ old_replan f) then
    let f := set_old_replan (replan_waypt (navstate f)) f in
    if decide (replan_waypt (navstate f) ≠ ElementID_null) then
      if road_blocked (navstate f) then (CmdrEvent.Blocked, f)
      else (CmdrEvent.Replan, f)
    else (CmdrEvent.None, f)
  else if new_goal1 then
    let '(ok, f) := cmdr_replan_route f in
    if negb ok then (CmdrEvent.Wait, f) else (CmdrEvent.None, f)
  else (CmdrEvent.None, f).

(** The branch taken while no plan has ever been made. *)
Definition enter_lane (f : FSM) : CmdrEvent.event_t * FSM :=
  let f := set_current_way (last_waypt (navstate f)) f in
  let f :=
    if decide (current_way f = id (goal (cmdr f)))
    then snd (cmdr_next_checkpoint f) else f in
  (CmdrEvent.EnterLane, f).

Definition current_event (f : FSM) : result (CmdrEvent.event_t * FSM) :=
  if bool_decide (length (route (cmdr f)) = 0%nat) then Ok (enter_lane f)
  else
    p ← track_progress f;
    match p with
    | lookup_failed _ f => Ok (CmdrEvent.Fail, f)
    | tracked new_goal1 new_goal2 f =>
        let '(finished, f) := advance_checkpoints new_goal1 new_goal2 f in
        Ok (select_event finished new_goal1 f)
    end.

(** *** [control] *)

(** The state change and the call of the action, for the event found. *)
Definition dispatch (event : CmdrEvent.event_t) (f : FSM) : Order * FSM :=
  let xp := ttable event (state f) in
  let f := set_prev (state f) f in
  let f := set_state (next xp) f in
  invoke (action xp) event f.

Definition control (_navstate : NavigatorState ElementID) (f : FSM) : result (Order * FSM) :=
  let f := set_navstate _navstate f in
  '(event, f) ← current_event f;
  Ok (dispatch event f).
(** *** Frame *)

(** [f'] agrees with [f] on the members that only [control] and the
    event selection write. *)
Definition same_registers (f f' : FSM) : Prop :=
  state f' = state f ∧ prev f' = prev f ∧ navstate f' = navstate f ∧
  old_replan f' = old_replan f.
End FSM.

(** ** Cycles *)

(** The order in which a mission visits the states. *)
Definition state_rank (s : CmdrState.state_t) : nat :=
  match s with
  | CmdrState.Init => 0
  | CmdrState.Road => 1
  | CmdrState.Done => 2
  end.

Section Cycles.
Context {ElementID Mission : Type} {api : Collaborators ElementID Mission}.

(** The Commander's cycle is [return control();] (see the notes at the head
    of FSM.cc): one call of [control] per navigator snapshot.  [cycles]
    makes these calls for a sequence of snapshots and collects the orders;
    a fault ends the run. *)
Fixpoint cycles (navs : list (NavigatorState ElementID))
    (f : CmdrFSM ElementID Mission)
    : result (list Order * CmdrFSM ElementID Mission) :=
  match navs with
  | [] => Ok ([], f)
  | nav :: navs =>
      '(o, f) ← control nav f;
      '(os, f) ← cycles navs f;
      Ok (o :: os, f)
  end.

End Cycles.

(** ** A small road network *)

(** Concrete collaborators on which the FSM can be run: identifiers are
    integers, the Commander's private part is the list of the checkpoints
    not yet reached. *)
Module Scenario.
(** The identifier [ElementID()] of no waypoint. *)
Definition null : Z := 0.

Definition node (i : Z) : WayPointNode Z := {| id := 100 + i; index := i |}.

Definition edge (i j : Z) : WayPointEdge :=
  {| startnode_index := i; endnode_index := j |}.

(** Ten waypoints, with indices 0 to 9 and identifiers 100 to 109. *)
Definition net : Graph Z :=
  fun i => if bool_decide (0 <= i < 10) then Some (node i) else None.

(** Modelled from the spec: [Commander::next_checkpoint] is missing; the
    spec says that the checkpoint sequence advances one checkpoint at a
    time, that [goal] and [goal2] are the current checkpoint and the one
    after it, and that advancing yields false when no checkpoint remains. *)
Definition advance (c : Commander Z (list Z)) : bool * Commander Z (list Z) :=
  let rest := tail (mission c) in
  (bool_decide (rest ≠ []),
   {| route := route c; graph := graph c;
      goal := {| id := hd null rest; index := 0 |};
      goal2 := {| id := hd null (tail rest); index := 0 |};
      blockages := blockages c; mission := rest |}).

(** Modelled from the spec: [Commander::replan_route] is missing; the spec
    says that it either produces a new route and yields true, or yields
    false and leaves the state as it was.  [plan] is the planner's answer. *)
Definition replan (plan : option (list WayPointEdge)) (c : Commander Z (list Z))
    : bool * Commander Z (list Z) :=
  match plan with
  | Some r => (true, set_route r c)
  | None => (false, c)
  end.

(** Modelled from the spec: [Commander::prepare_order] is missing; the
    spec says that the actions built on it return a Go order. *)
Definition order_for (b : Behavior.value_type) (c : Commander Z (list Z))
    : Order * Commander Z (list Z) :=
  ({| behavior := b |}, c).

Definition api (plan : option (list WayPointEdge)) : Collaborators Z (list Z) :=
  {| ElementID_eq_dec := Z.eq_dec;
     ElementID_null := null;
     next_checkpoint := advance;
     replan_route := replan plan;
     prepare_order := order_for |}.

(** A Commander with the given plan and checkpoints still to reach. *)
Definition commander (rt : list WayPointEdge) (checkpoints : list Z)
    : Commander Z (list Z) :=
  {| route := rt; graph := net;
     goal := {| id := hd null checkpoints; index := 0 |};
     goal2 := {| id := hd null (tail checkpoints); index := 0 |};
     blockages := []; mission := checkpoints |}.

Definition nav (last replan : Z) (blocked : bool) : NavigatorState Z :=
  {| last_waypt := last; replan_waypt := replan; road_blocked := blocked |}.

(** An FSM in state [s] that has tracked the vehicle up to [way]. *)
Definition fsm (s : CmdrState.state_t) (way old : Z)
    (rt : list WayPointEdge) (checkpoints : list Z) : CmdrFSM Z (list Z) :=
  {| current_way := way; cmdr := commander rt checkpoints;
     navstate := nav null null false;
     prev := s; state := s; old_replan := old; calls := [] |}.
End Scenario.

(** * The map lanes driver (art_map/src/node/mapl.cc) *)

Module MapLanesDriver.

(** The ROS message types come from headers that mapl.cc includes; the
    driver copies their values without computing on them.  [Messages]
    gathers the types of these values, the two conversions the driver
    calls on them and the period
    [ros::Duration(art_common::ArtHertz::MAPLANES)]. *)
Class Messages := {
  Time : Type;
  Duration : Type;
  Point : Type;
  Point32 : Type;
  Quaternion : Type;
  Heading : Type;
  Point_default : Point;
  Quaternion_default : Quaternion;
  Point_of_Point32 : Point32 -> Point;
  createQuaternionMsgFromYaw : Heading -> Quaternion;
  MAPLANES_period : Duration
}.

(** [(int32_t) i] for [i] of type [uint32_t]. *)
Definition to_int32 (i : Z) : Z := (i + 2 ^ 31) mod 2 ^ 32 - 2 ^ 31.

(** [++i] for [i] of type [uint32_t]. *)
Definition uint32_succ (i : Z) : Z := (i + 1) mod 2 ^ 32.

Section Driver.
Context {M : Messages}.

(** A float field is given the exact rational value of the float it
    holds: [Vector3] has binary64 fields and [ColorRGBA] binary32 ones. *)
Record Vector3 := { x : Q; y : Q; z : Q }.

Record ColorRGBA := { r : Q; g : Q; b : Q; a : Q }.

(** The literals 0.0 and 1.0 are floats; 0.1 and 0.8 are not.  A literal
    is a [double]: [float64_0_1] and [float64_0_8] are the binary64 values
    nearest to 0.1 and to 0.8, and [float32_0_8] is the binary32 value
    nearest to [float64_0_8], which the assignment [wp.color.a = 0.8]
    stores in the [float32] field. *)
Definition float64_0_1 : Q := 3602879701896397 # 36028797018963968.

Definition float64_0_8 : Q := 3602879701896397 # 4503599627370496.

Definition float32_0_8 : Q := 13421773 # 16777216.

Inductive marker_type := ARROW | LINE_LIST | CYLINDER.

Inductive marker_action := ADD.

#[global] Instance marker_type_eq_dec : EqDecision marker_type.
Proof. solve_decision. Defined.

(** The fields of [visualization_msgs::Marker] that the driver writes. *)
Record Marker := {
  stamp : Time;
  frame_id : string;
  ns : string;
  id : Z;
  type : marker_type;
  action : marker_action;
  position : Point;
  orientation : Quaternion;
  scale : Vector3;
  color : ColorRGBA;
  lifetime : Duration;
  points : list Point
}.

(** The fields of [art_map::ArtQuadrilateral] that the driver reads. *)
Record ArtQuadrilateral := {
  poly_points : list Point32;
  midpoint : Point;
  heading : Heading;
  is_transition : bool;
  contains_way : bool;
  is_stop : bool
}.

Record ArtLanes := {
  lanes_stamp : Time;
  lanes_frame_id : string;
  polygons : list ArtQuadrilateral
}.

(** The fields of [nav_msgs::Odometry] that the driver reads. *)
Record Odometry := {
  odom_stamp : Time;
  odom_position : Point
}.

(** What the driver sends, by topic. *)
Inductive publication :=
| roadmap_global (lanes : ArtLanes)
| roadmap_local (lanes : ArtLanes)
| visualization_marker_array (markers : list Marker).
End Driver.

(** The [MapLanes] class is declared in art_map/MapLanes.h.  [getAllLanes]
    yields the number of polygons and [getLanes] a return code, zero for
    success; both fill the lane data and may change the map object.
    [getLanes] takes the position of the odometry message, from which the
    source makes a [MapXY]. *)
Class RoadMap (M : Messages) := {
  MapLanes : Type;
  getAllLanes : MapLanes -> Z * ArtLanes * MapLanes;
  getLanes : MapLanes -> Point -> Z * ArtLanes * MapLanes
}.

Section Node.
Context {M : Messages} {R : RoadMap M}.

(** The data members of [MapLanesDriver] that the cycle reads or writes;
    the parameters of the constructor and the publishers are left to ROS. *)
Record driver := {
  frame_id_ : string;
  odom_msg_ : Odometry;
  marks_msg_ : list Marker;
  map_ : MapLanes;
  initial_position_ : bool
}.

Definition set_marks_msg (ms : list Marker) (d : driver) : driver :=
  {| frame_id_ := frame_id_ d; odom_msg_ := odom_msg_ d; marks_msg_ := ms;
     map_ := map_ d; initial_position_ := initial_position_ d |}.

Definition set_map (m : MapLanes) (d : driver) : driver :=
  {| frame_id_ := frame_id_ d; odom_msg_ := odom_msg_ d;
     marks_msg_ := marks_msg_ d; map_ := m;
     initial_position_ := initial_position_ d |}.

(** [processOdom]. *)
Definition processOdom (odomIn : Odometry) (d : driver) : driver :=
  {| frame_id_ := frame_id_ d; odom_msg_ := odomIn;
     marks_msg_ := marks_msg_ d; map_ := map_ d;
     initial_position_ :=
       if bool_decide (initial_position_ d = false) then true
       else initial_position_ d |}.

Definition green : ColorRGBA := {| r := 0; g := 1; b := 0; a := 1 |}.

(** The body of the loop of [publishMapMarks] for polygon [i]: up to three
    [push_back] on [marks_msg_.markers]. *)
Definition mark_polygon (now : Time) (frame : string) (map_name : string)
    (life : Duration) (i : Z) (p : ArtQuadrilateral) (markers : list Marker)
    : list Marker :=
  let mark :=
    {| stamp := now; frame_id := frame;
       ns := "polygons_" +:+ map_name; id := to_int32 i;
       type := ARROW; action := ADD;
       position := midpoint p;
       orientation := createQuaternionMsgFromYaw (heading p);
       scale := {| x := 1; y := 1; z := 1 |};
       color := green; lifetime := life; points := [] |} in
  let markers := markers ++ [mark] in
  let markers :=
    if negb (is_transition p) then
      let lane :=
        {| stamp := now; frame_id := frame;
           ns := "lanes_" +:+ map_name; id := to_int32 i;
           type := LINE_LIST; action := ADD;
           position := Point_default; orientation := Quaternion_default;
           scale := {| x := float64_0_1; y := 0; z := 0 |};
           color := green; lifetime := life;
           points := map Point_of_Point32 (poly_points p) |} in
      markers ++ [lane]
    else markers in
  if contains_way p then
    let wp :=
      {| stamp := now; frame_id := frame;
         ns := "waypoints_" +:+ map_name; id := to_int32 i;
         type := CYLINDER; action := ADD;
         position := midpoint p;
         orientation := createQuaternionMsgFromYaw (heading p);
         scale := {| x := 1; y := 1; z := float64_0_1 |};
         color :=
           if is_stop p then {| r := 1; g := 0; b := 0; a := float32_0_8 |}
           else {| r := 1; g := 1; b := 0; a := float32_0_8 |};
         lifetime := life; points := [] |} in
    markers ++ [wp]
  else markers.

(** The loop over [lane_data.polygons], from index [i] on.  The index is a
    [uint32_t]: the embedding follows the source for arrays of fewer than
    2^32 polygons, beyond which the loop of the source does not end. *)
Fixpoint mark_polygons (now : Time) (frame : string) (map_name : string)
    (life : Duration) (i : Z) (ps : list ArtQuadrilateral)
    (markers : list Marker) : list Marker :=
  match ps with
  | [] => markers
  | p :: ps =>
      mark_polygons now frame map_name life (uint32_succ i) ps
        (mark_polygon now frame map_name life i p markers)
  end.

(** [publishMapMarks]: [subscribers] is [pub.getNumSubscribers()] and [now]
    is [ros::Time::now()]. *)
Definition publishMapMarks (subscribers : Z) (now : Time) (map_name : string)
    (life : Duration) (lane_data : ArtLanes) (d : driver)
    : list publication * driver :=
  if bool_decide (subscribers = 0) then ([], d)
  else
    let markers :=
      mark_polygons now (frame_id_ d) map_name life 0 (polygons lane_data) [] in
    ([visualization_marker_array markers], set_marks_msg markers d).

(** [publishGlobalMap]. *)
Definition publishGlobalMap (now : Time) (d : driver) : list publication * driver :=
  let '(n, lane_data, m) := getAllLanes (map_ d) in
  let d := set_map m d in
  if bool_decide (0 = n) then ([], d)
  else
    let lane_data :=
      {| lanes_stamp := now; lanes_frame_id := frame_id_ d;
         polygons := polygons lane_data |} in
    ([roadmap_global lane_data], d).

(** [publishLocalMap]. *)
Definition publishLocalMap (subscribers : Z) (now : Time) (d : driver)
    : list publication * driver :=
  let '(rc, lane_data, m) := getLanes (map_ d) (odom_position (odom_msg_ d)) in
  let d := set_map m d in
  if bool_decide (0 ≠ rc) then ([], d)
  else
    let lane_data :=
      {| lanes_stamp := odom_stamp (odom_msg_ d);
         lanes_frame_id := frame_id_ d;
         polygons := polygons lane_data |} in
    let '(out, d) :=
      publishMapMarks subscribers now "local_roadmap" MAPLANES_period
        lane_data d in
    (roadmap_local lane_data :: out, d).

(** What one turn of the loop of [Spin] meets: the odometry messages that
    [ros::spinOnce()] hands to [processOdom], the number of subscribers to
    the markers and the time. *)
Record turn := {
  incoming : list Odometry;
  subscribers : Z;
  now : Time
}.

(** The body of the loop of [Spin]. *)
Definition spin_once (t : turn) (d : driver) : list publication * driver :=
  let d := foldl (fun d odomIn => processOdom odomIn d) d (incoming t) in
  if initial_position_ d then publishLocalMap (subscribers t) (now t) d
  else ([], d).

(** The loop of [Spin], for as many turns as [ros::ok()] allows. *)
Fixpoint spin_loop (turns : list turn) (d : driver) : list publication * driver :=
  match turns with
  | [] => ([], d)
  | t :: turns =>
      let '(out, d) := spin_once t d in
      let '(outs, d) := spin_loop turns d in
      (out ++ outs, d)
  end.

(** [Spin]: [start] is the time at which the global map is published. *)
Definition Spin (start : Time) (turns : list turn) (d : driver)
    : list publication * driver :=
  let '(out, d) := publishGlobalMap start d in
  let '(outs, d) := spin_loop turns d in
  (out ++ outs, d).
End Node.
End MapLanesDriver.

(** ** A small road map *)

(** Concrete messages on which the driver can be run: times, points and
    headings are integers, and the road map is the list of its polygons,
    which [getLanes] reports whole when there are any. *)
Module MapScenario.
Import MapLanesDriver.

Definition messages : Messages :=
  {| Time := Z; Duration := Z; Point := Z; Point32 := Z; Quaternion := Z;
     Heading := Z; Point_default := 0; Quaternion_default := 0;
     Point_of_Point32 := fun p => p;
     createQuaternionMsgFromYaw := fun h => h;
     MAPLANES_period := 10 |}.

Definition lanes_of (ps : list (ArtQuadrilateral (M := messages)))
    : ArtLanes (M := messages) :=
  @Build_ArtLanes messages 0 "" ps.

Definition road_map : RoadMap messages :=
  {| MapLanes := list (ArtQuadrilateral (M := messages));
     getAllLanes := fun m => (Z.of_nat (length m), lanes_of m, m);
     getLanes := fun m _ =>
       (if bool_decide (m = []) then 1 else 0, lanes_of m, m) |}.

(** A polygon with its centre at [mid]. *)
Definition quad (mid : Z) (transition way stop : bool)
    : ArtQuadrilateral (M := messages) :=
  @Build_ArtQuadrilateral messages [mid - 1; mid + 1; mid + 2; mid - 2]
    mid 0 transition way stop.

(** A lane polygon, a stop line and a transition. *)
Definition three_quads : list (ArtQuadrilateral (M := messages)) :=
  [quad 10 false false false; quad 20 false true true;
   quad 30 true false false].

(** A driver that has built the map [m] and received no odometry. *)
Definition fresh (m : list (ArtQuadrilateral (M := messages)))
    : driver (R := road_map) :=
  @Build_driver messages road_map "/map" (@Build_Odometry messages 0 0)
    [] m false.

Definition odom (time position : Z) : Odometry (M := messages) :=
  @Build_Odometry messages time position.

(** A turn of the loop at time [time], with one subscriber to the
    markers. *)
Definition turn_at (time : Z) (ods : list (Odometry (M := messages)))
    : turn (M := messages) :=
  @Build_turn messages ods 1 time.
End MapScenario.

(** * Properties *)

(** ** The transition table *)

Lemma ttable_in_Done event :
  ttable event CmdrState.Done =
  {| next := CmdrState.Done; action := Action.ActionInDone |}.
Proof. destruct event; reflexivity. Qed.

Lemma ttable_Fail_Road :
  ttable CmdrEvent.Fail CmdrState.Road =
  {| next := CmdrState.Done; action := Action.ActionFail |}.
Proof. reflexivity. Qed.

Lemma ttable_EnterLane_Init :
  ttable CmdrEvent.EnterLane CmdrState.Init =
  {| next := CmdrState.Road; action := Action.InitToRoad |}.
Proof. reflexivity. Qed.

(** No cell keeps the default: the [Add] calls cover the whole table. *)
Lemma ttable_total event s : action (ttable event s) ≠ Action.ActionError.
Proof. destruct event, s; discriminate. Qed.

(** ** The ghost log *)

Lemma count_call_snoc c x l :
  count_call c (l ++ [x]) =
  (count_call c l + if decide (x = c) then 1 else 0)%nat.
Proof.
  unfold count_call. rewrite filter_app, length_app.
  rewrite filter_cons, filter_nil. destruct (decide (x = c)); reflexivity.
Qed.

Section Properties.
Context {ElementID Mission : Type} {api : Collaborators ElementID Mission}.

#[local] Abbreviation FSM := (CmdrFSM ElementID Mission).

Implicit Types (f : FSM) (nav : NavigatorState ElementID).
Implicit Types (event : CmdrEvent.event_t).

(** *** What each step leaves alone *)

Lemma cmdr_next_checkpoint_spec f :
  cmdr_next_checkpoint f =
  (fst (next_checkpoint (cmdr f)),
   log_call call_next_checkpoint (set_cmdr (snd (next_checkpoint (cmdr f))) f)).
Proof. unfold cmdr_next_checkpoint. by destruct (next_checkpoint (cmdr f)). Qed.

Lemma cmdr_replan_route_spec f :
  cmdr_replan_route f =
  (fst (replan_route (cmdr f)),
   log_call call_replan_route (set_cmdr (snd (replan_route (cmdr f))) f)).
Proof. unfold cmdr_replan_route. by destruct (replan_route (cmdr f)). Qed.

Lemma cmdr_prepare_order_spec b f :
  cmdr_prepare_order b f =
  (fst (prepare_order b (cmdr f)),
   log_call (call_prepare_order b) (set_cmdr (snd (prepare_order b (cmdr f))) f)).
Proof. unfold cmdr_prepare_order. by destruct (prepare_order b (cmdr f)). Qed.

Lemma track_progress_tracked f g1 g2 f' :
  track_progress f = Ok (tracked g1 g2 f') →
  same_registers f f' ∧ calls f' = calls f.
Proof.
  unfold track_progress. intros H.
  repeat (case_decide || case_match); simplify_eq; by repeat split.
Qed.

Lemma track_progress_lookup_failed f idx f' :
  track_progress f = Ok (lookup_failed idx f') →
  same_registers f f' ∧ calls f' = calls f.
Proof.
  unfold track_progress. intros H.
  repeat (case_decide || case_match); simplify_eq; by repeat split.
Qed.

Lemma advance_checkpoints_registers g1 g2 f :
  same_registers f (snd (advance_checkpoints g1 g2 f)).
Proof.
  unfold advance_checkpoints. rewrite !cmdr_next_checkpoint_spec.
  destruct g1, g2; simpl; rewrite ?cmdr_next_checkpoint_spec;
    by repeat split.
Qed.

Lemma advance_checkpoints_no_replan g1 g2 f :
  count_call call_replan_route (calls (snd (advance_checkpoints g1 g2 f))) =
  count_call call_replan_route (calls f).
Proof.
  unfold advance_checkpoints. rewrite !cmdr_next_checkpoint_spec.
  destruct g1, g2; simpl; rewrite ?cmdr_next_checkpoint_spec; simpl;
    rewrite ?count_call_snoc; simpl; lia.
Qed.

Lemma select_event_registers finished g1 f :
  let f' := snd (select_event finished g1 f) in
  state f' = state f ∧ prev f' = prev f ∧ navstate f' = navstate f.
Proof.
  unfold select_event. rewrite cmdr_replan_route_spec.
  repeat (case_decide || case_match); simplify_eq/=; by repeat split.
Qed.

Lemma current_event_registers f event f' :
  current_event f = Ok (event, f') →
  state f' = state f ∧ prev f' = prev f ∧ navstate f' = navstate f.
Proof.
  unfold current_event, enter_lane. case_bool_decide.
  - rewrite cmdr_next_checkpoint_spec. intros [= <- <-].
    case_decide; by repeat split.
  - destruct (track_progress f) as [[g1 g2 f1|idx f1]|e] eqn:Htrack;
      simpl; [| |done].
    + apply track_progress_tracked in Htrack as [(Hs & Hp & Hn & _) _].
      pose proof (advance_checkpoints_registers g1 g2 f1) as (Hs' & Hp' & Hn' & _).
      destruct (advance_checkpoints g1 g2 f1) as [finished f2]; simpl in *.
      pose proof (select_event_registers finished g1 f2) as (Hs2 & Hp2 & Hn2).
      destruct (select_event finished g1 f2) as [ev f3]; simpl in *.
      intros [= <- <-]. repeat split; congruence.
    + apply track_progress_lookup_failed in Htrack as [(Hs & Hp & Hn & _) _].
      intros [= <- <-]. by repeat split.
Qed.

(** *** Dispatch in each state *)

Lemma dispatch_in_Done event f :
  state f = CmdrState.Done →
  dispatch event f =
  ({| behavior := Behavior.Quit |},
   set_state CmdrState.Done (set_prev CmdrState.Done f)).
Proof.
  intros Hs. unfold dispatch. rewrite Hs, ttable_in_Done. reflexivity.
Qed.

(** C1. Done is absorbing: when [control] is entered in state Done and
    [current_event] returns any event at all, the cycle ends in state Done
    and the order returned carries the behaviour Quit. *)
Theorem done_is_absorbing nav f event f1 :
  state f = CmdrState.Done →
  current_event (set_navstate nav f) = Ok (event, f1) →
  ∃ f2,
    control nav f = Ok ({| behavior := Behavior.Quit |}, f2) ∧
    f2 = set_state CmdrState.Done (set_prev CmdrState.Done f1) ∧
    state f2 = CmdrState.Done.
Proof.
  intros Hs Hev. eexists. split; [|split; reflexivity].
  unfold control. rewrite Hev. simpl.
  apply current_event_registers in Hev as (Hs1 & _ & _).
  rewrite dispatch_in_Done; [reflexivity|]. by rewrite Hs1.
Qed.

(** C5, as the code has it.  The row of the table for EnterLane: in Init
    the FSM moves to Road and runs [InitToRoad]; in Road it stays in Road
    and runs [ActionInRoad]; in Done it stays in Done and runs
    [ActionInDone]. *)
Theorem enter_lane_row f :
  ttable CmdrEvent.EnterLane CmdrState.Init =
    {| next := CmdrState.Road; action := Action.InitToRoad |} ∧
  ttable CmdrEvent.EnterLane CmdrState.Road =
    {| next := CmdrState.Road; action := Action.ActionInRoad |} ∧
  ttable CmdrEvent.EnterLane CmdrState.Done =
    {| next := CmdrState.Done; action := Action.ActionInDone |} ∧
  dispatch CmdrEvent.EnterLane (set_state CmdrState.Init f) =
    InitToRoad CmdrEvent.EnterLane
      (set_state CmdrState.Road (set_prev CmdrState.Init f)) ∧
  dispatch CmdrEvent.EnterLane (set_state CmdrState.Road f) =
    ActionInRoad CmdrEvent.EnterLane
      (set_state CmdrState.Road (set_prev CmdrState.Road f)).
Proof. by repeat split. Qed.

(** *** The walk through the plan *)

Lemma walk_loop_in_bounds g goal_id goal2_id last rt way g1 g2 e :
  (2 ≤ length rt)%nat →
  walk_loop g goal_id goal2_id last rt way g1 g2 ≠ walk_fault e.
Proof.
  revert way g1 g2.
  induction rt as [|e0 rt IH]; intros way g1 g2 Hlen; simpl in Hlen; [lia|].
  destruct rt as [|first_edge rt']; simpl in Hlen; [lia|].
  cbn [walk_loop].
  destruct (get_node_by_index g (startnode_index first_edge)); [|done].
  destruct (bool_decide (last ≠ _) && bool_decide _) eqn:Hgo; [|done].
  apply andb_true_iff in Hgo as [_ Hgo%bool_decide_eq_true].
  apply IH. lia.
Qed.

Lemma walk_loop_fault g goal_id goal2_id last rt way g1 g2 e :
  walk_loop g goal_id goal2_id last rt way g1 g2 = walk_fault e →
  (rt = [] ∧ e = pop_front_empty) ∨ (length rt = 1%nat ∧ e = out_of_range).
Proof.
  destruct rt as [|e0 [|e1 rt]].
  - intros [= <-]. by left.
  - intros [= <-]. by right.
  - intros H. apply walk_loop_in_bounds in H; [done|simpl; lia].
Qed.

(** A lookup that [walk_loop] reports as failed did fail, and it was for
    the start node of an edge of the plan. *)
Lemma walk_loop_miss g goal_id goal2_id last rt way g1 g2 idx rt' way' :
  walk_loop g goal_id goal2_id last rt way g1 g2 = walk_miss idx rt' way' →
  get_node_by_index g idx = None ∧
  ∃ edge, edge ∈ rt ∧ startnode_index edge = idx.
Proof.
  revert way g1 g2.
  induction rt as [|e0 rt IH]; intros way g1 g2; [done|].
  destruct rt as [|first_edge rt1]; [done|].
  cbn [walk_loop].
  destruct (get_node_by_index g (startnode_index first_edge)) eqn:Hlook.
  - destruct (bool_decide (last ≠ _) && bool_decide _); [|done].
    intros H. apply IH in H as [Hnone (edge & Hin & Hidx)]. split; [done|].
    exists edge. split; [by apply elem_of_cons; right|done].
  - intros [= <- <- <-]. split; [done|].
    exists first_edge. split; [|done]. right. left.
Qed.

(** The edge [walk_loop] leaves in [first_edge] is an edge of the plan. *)
Lemma walk_loop_exit g goal_id goal2_id last rt way g1 g2 rt' edge way' g1' g2' :
  walk_loop g goal_id goal2_id last rt way g1 g2 =
    walk_exit rt' edge way' g1' g2' →
  edge ∈ rt.
Proof.
  revert way g1 g2.
  induction rt as [|e0 rt IH]; intros way g1 g2; [done|].
  destruct rt as [|first_edge rt1]; [done|].
  cbn [walk_loop].
  destruct (get_node_by_index g (startnode_index first_edge)); [|done].
  destruct (bool_decide (last ≠ _) && bool_decide _).
  - intros H. apply IH in H. by apply elem_of_cons; right.
  - intros [= <- <- <- <- <-]. right. left.
Qed.

Lemma track_progress_fault f e :
  track_progress f = Raise e →
  last_waypt (navstate f) ≠ current_way f ∧
  ((route (cmdr f) = [] ∧ e = pop_front_empty) ∨
   (length (route (cmdr f)) = 1%nat ∧ e = out_of_range)).
Proof.
  unfold track_progress. case_decide as Hne; [|done].
  destruct (walk_loop _ _ _ _ _ _ _ _) eqn:Hwalk.
  - repeat case_match; done.
  - done.
  - intros [= <-]. split; [done|]. by eapply walk_loop_fault.
Qed.

(** C10. The walk through the plan stays within the route only when the
    route holds at least two edges.  With exactly one edge and a reported
    waypoint other than [current_way], the body of the loop removes that
    edge and then reads [at(0)] of the empty route, which raises
    [out_of_range]; with two edges or more [current_event] returns an
    event; and no fault arises in any other way. *)
Theorem route_access_in_bounds f :
  (length (route (cmdr f)) = 1%nat →
   last_waypt (navstate f) ≠ current_way f →
   current_event f = Raise out_of_range) ∧
  ((2 ≤ length (route (cmdr f)))%nat → ∃ r, current_event f = Ok r) ∧
  (∀ e, current_event f = Raise e →
        e = out_of_range ∧ length (route (cmdr f)) = 1%nat ∧
        last_waypt (navstate f) ≠ current_way f).
Proof.
  assert (Hfault : ∀ e, current_event f = Raise e →
            e = out_of_range ∧ length (route (cmdr f)) = 1%nat ∧
            last_waypt (navstate f) ≠ current_way f).
  { intros e. unfold current_event. case_bool_decide as Hlen; [done|].
    destruct (track_progress f) as [[g1 g2 f1|idx f1]|e'] eqn:Htrack; simpl.
    - by destruct (advance_checkpoints g1 g2 f1).
    - done.
    - intros [= <-].
      apply track_progress_fault in Htrack as [Hne [[Hnil _]|[Hone ->]]];
        [|done].
      by rewrite Hnil in Hlen. }
  split; [|split; [|done]].
  - intros Hlen Hne. unfold current_event.
    rewrite bool_decide_eq_false_2 by lia.
    unfold track_progress. rewrite decide_True by done.
    destruct (route (cmdr f)) as [|e0 [|e1 rt]]; simpl in Hlen; try lia.
    reflexivity.
  - intros Hlen. destruct (current_event f) as [r|e] eqn:Hev; [by eexists|].
    destruct (Hfault e eq_refl) as (_ & Hone & _). lia.
Qed.

(** A lookup that [track_progress] reports as failed did fail, and it was
    for an end of an edge of the plan. *)
Lemma track_progress_miss f idx f' :
  track_progress f = Ok (lookup_failed idx f') →
  get_node_by_index (graph (cmdr f)) idx = None ∧
  ∃ edge, edge ∈ route (cmdr f) ∧
          (startnode_index edge = idx ∨ endnode_index edge = idx).
Proof.
  unfold track_progress. case_decide as Hne; [|done].
  destruct (walk_loop _ _ _ _ _ _ _ _) as [rt edge way g1 g2|i rt way|e]
    eqn:Hwalk; [| |done].
  - apply walk_loop_exit in Hwalk. case_decide; [|done].
    destruct (get_node_by_index _ (endnode_index edge)) eqn:Hlook; [done|].
    intros [= <- <-]. split; [done|]. exists edge. by split; [|right].
  - apply walk_loop_miss in Hwalk as [Hnone (edge & Hin & Hidx)].
    intros [= <- <-]. split; [done|]. exists edge. by split; [|left].
Qed.

Lemma current_event_tracked f g1 g2 f1 :
  route (cmdr f) ≠ [] →
  track_progress f = Ok (tracked g1 g2 f1) →
  current_event f =
  Ok (select_event (fst (advance_checkpoints g1 g2 f1)) g1
        (snd (advance_checkpoints g1 g2 f1))).
Proof.
  intros Hrt Htrack. unfold current_event.
  rewrite bool_decide_eq_false_2 by (by destruct (route (cmdr f))).
  rewrite Htrack. simpl. by destruct (advance_checkpoints g1 g2 f1).
Qed.

Lemma current_event_lookup_failed f idx f1 :
  track_progress f = Ok (lookup_failed idx f1) →
  current_event f = Ok (CmdrEvent.Fail, f1).
Proof.
  intros Htrack. unfold current_event.
  pose proof (track_progress_miss _ _ _ Htrack) as (_ & edge & Hin & _).
  rewrite bool_decide_eq_false_2
    by (destruct (route (cmdr f)); [by apply elem_of_nil in Hin|done]).
  by rewrite Htrack.
Qed.

Lemma walk_loop_step g goal_id goal2_id last e0 x rt way g1 g2 m :
  get_node_by_index g (startnode_index x) = Some m →
  id m ≠ last →
  rt ≠ [] →
  walk_loop g goal_id goal2_id last (e0 :: x :: rt) way g1 g2 =
  walk_loop g goal_id goal2_id last (x :: rt) (id m)
    (passed_goal (id m) goal_id g1) (passed_goal (id m) goal2_id g2).
Proof.
  intros Hx Hm Hrt. cbn [walk_loop]. rewrite Hx.
  rewrite bool_decide_eq_true_2 by done.
  rewrite bool_decide_eq_true_2 by (destruct rt; [done|simpl; lia]).
  reflexivity.
Qed.

(** The loop meets a start node that the graph does not have: every edge
    between the front one and [edge] resolves to a waypoint other than the
    reported one, and the start node of [edge] is not found. *)
Lemma walk_loop_missing_start g goal_id goal2_id last e0 pre edge post way g1 g2 :
  Forall (λ x, ∃ m, get_node_by_index g (startnode_index x) = Some m ∧
                    id m ≠ last) pre →
  get_node_by_index g (startnode_index edge) = None →
  ∃ way',
    walk_loop g goal_id goal2_id last (e0 :: pre ++ edge :: post) way g1 g2 =
    walk_miss (startnode_index edge) (edge :: post) way'.
Proof.
  intros Hpre Hnone. revert e0 way g1 g2.
  induction Hpre as [|x pre (m & Hx & Hm) _ IH]; intros e0 way g1 g2.
  - exists way. cbn [walk_loop app]. by rewrite Hnone.
  - rewrite <- app_comm_cons.
    rewrite (walk_loop_step _ _ _ _ _ _ _ _ _ _ m) by (done || by destruct pre).
    apply IH.
Qed.

(** The loop comes to the last edge without meeting the reported
    waypoint. *)
Lemma walk_loop_runs_out g goal_id goal2_id last e0 pre edge way g1 g2 m :
  Forall (λ x, ∃ m, get_node_by_index g (startnode_index x) = Some m ∧
                    id m ≠ last) pre →
  get_node_by_index g (startnode_index edge) = Some m →
  id m ≠ last →
  ∃ g1' g2',
    walk_loop g goal_id goal2_id last (e0 :: pre ++ [edge]) way g1 g2 =
    walk_exit [edge] edge (id m) g1' g2'.
Proof.
  intros Hpre Hlook Hm. revert e0 way g1 g2.
  induction Hpre as [|x pre (m' & Hx & Hm') _ IH]; intros e0 way g1 g2.
  - eexists _, _. cbn [walk_loop app]. rewrite Hlook.
    rewrite bool_decide_eq_true_2 by done.
    rewrite bool_decide_eq_false_2 by (simpl; lia). reflexivity.
  - rewrite <- app_comm_cons.
    rewrite (walk_loop_step _ _ _ _ _ _ _ _ _ _ m') by (done || by destruct pre).
    apply IH.
Qed.

(** C7. When a lookup in the waypoint graph fails during the walk through
    the plan, [current_event] returns Fail at once, without any call to
    the Commander; dispatched in state Road, Fail moves the FSM to Done
    and the order returned is Abort.  The walk looks up the start node of
    [edge] when every edge between the front one and [edge] resolves to a
    waypoint other than the reported one, and it looks up the end node of
    [edge] when, besides, [edge] is the last edge and its start node
    resolves to another waypoint as well; [idx] is the index looked up. *)
Theorem lookup_failure_aborts nav f e0 pre edge post idx :
  let g := graph (cmdr f) in
  state f = CmdrState.Road →
  last_waypt nav ≠ current_way f →
  route (cmdr f) = e0 :: pre ++ edge :: post →
  Forall (λ x, ∃ m, get_node_by_index g (startnode_index x) = Some m ∧
                    id m ≠ last_waypt nav) pre →
  startnode_index edge = idx ∨
  (post = [] ∧ endnode_index edge = idx ∧
   ∃ m, get_node_by_index g (startnode_index edge) = Some m ∧
        id m ≠ last_waypt nav) →
  get_node_by_index g idx = None →
  ∃ f1 f2,
    current_event (set_navstate nav f) = Ok (CmdrEvent.Fail, f1) ∧
    calls f1 = calls f ∧
    route (cmdr f1) = edge :: post ∧
    control nav f = Ok ({| behavior := Behavior.Abort |}, f2) ∧
    f2 = set_state CmdrState.Done (set_prev CmdrState.Road f1) ∧
    state f2 = CmdrState.Done.
Proof.
  intros g Hs Hne Hrt Hpre Hwhich Hnone.
  assert (∃ f1, track_progress (set_navstate nav f) = Ok (lookup_failed idx f1) ∧
                route (cmdr f1) = edge :: post) as (f1 & Htrack & Hrt1).
  { unfold track_progress. simpl. rewrite decide_True by done.
    rewrite Hrt. fold g. destruct Hwhich as [<-|(-> & <- & m & Hlook & Hm)].
    - destruct (walk_loop_missing_start g (id (goal (cmdr f)))
                  (id (goal2 (cmdr f))) (last_waypt nav) e0 pre edge post
                  (current_way f) false false Hpre Hnone) as [way' ->].
      by eexists.
    - destruct (walk_loop_runs_out g (id (goal (cmdr f)))
                  (id (goal2 (cmdr f))) (last_waypt nav) e0 pre edge
                  (current_way f) false false m Hpre Hlook Hm)
        as (g1' & g2' & ->).
      rewrite decide_True by done. rewrite Hnone. by eexists. }
  pose proof (track_progress_lookup_failed _ _ _ Htrack) as [(Hs1 & _) Hcalls].
  pose proof (current_event_lookup_failed _ _ _ Htrack) as Hev.
  exists f1, (set_state CmdrState.Done (set_prev CmdrState.Road f1)).
  split; [done|]. split; [done|]. split; [done|]. split; [|done].
  unfold control. rewrite Hev. simpl. unfold dispatch.
  simpl in Hs1. rewrite Hs1, Hs, ttable_Fail_Road. reflexivity.
Qed.

(** The premises of the theorem above are all the ways in which the walk
    can meet a missing node: whenever [track_progress] ends on a failed
    lookup, the route and the graph are as the theorem asks. *)
Lemma walk_loop_miss_inv g goal_id goal2_id last rt way g1 g2 idx rt' way' :
  walk_loop g goal_id goal2_id last rt way g1 g2 = walk_miss idx rt' way' →
  ∃ e0 pre edge post,
    rt = e0 :: pre ++ edge :: post ∧ rt' = edge :: post ∧
    Forall (λ x, ∃ m, get_node_by_index g (startnode_index x) = Some m ∧
                      id m ≠ last) pre ∧
    startnode_index edge = idx ∧
    get_node_by_index g idx = None.
Proof.
  revert way g1 g2.
  induction rt as [|e0 rt IH]; intros way g1 g2; [done|].
  destruct rt as [|first_edge rt1]; [done|].
  cbn [walk_loop].
  destruct (get_node_by_index g (startnode_index first_edge)) as [n|] eqn:Hlook.
  - destruct (bool_decide (last ≠ _) && bool_decide _) eqn:Hgo; [|done].
    apply andb_true_iff in Hgo as [Hne%bool_decide_eq_true _].
    intros H. apply IH in H
      as (e0' & pre & edge & post & Hrt & Hrt' & Hpre & Hidx & Hnone).
    injection Hrt as <- ->.
    exists e0, (first_edge :: pre), edge, post.
    split; [done|]. split; [done|]. split; [|done].
    constructor; [|done]. exists n. split; [done|]. congruence.
  - intros [= <- <- <-]. exists e0, [], first_edge, rt1. by repeat split.
Qed.

Lemma walk_loop_exit_inv g goal_id goal2_id last rt way g1 g2 rt' edge way' g1' g2' :
  walk_loop g goal_id goal2_id last rt way g1 g2 =
    walk_exit rt' edge way' g1' g2' →
  last ≠ way' →
  ∃ e0 pre m,
    rt = e0 :: pre ++ [edge] ∧ rt' = [edge] ∧
    Forall (λ x, ∃ m, get_node_by_index g (startnode_index x) = Some m ∧
                      id m ≠ last) pre ∧
    get_node_by_index g (startnode_index edge) = Some m ∧ id m = way'.
Proof.
  revert way g1 g2.
  induction rt as [|e0 rt IH]; intros way g1 g2; [done|].
  destruct rt as [|first_edge rt1]; [done|].
  cbn [walk_loop].
  destruct (get_node_by_index g (startnode_index first_edge)) as [n|] eqn:Hlook;
    [|done].
  destruct (bool_decide (last ≠ _) && bool_decide _) eqn:Hgo.
  - apply andb_true_iff in Hgo as [Hne%bool_decide_eq_true _].
    intros H Hway. apply IH in H
      as (e0' & pre & m & Hrt & Hrt' & Hpre & Hm & Hid); [|done].
    injection Hrt as <- ->.
    exists e0, (first_edge :: pre), m.
    split; [done|]. split; [done|]. split; [|done].
    constructor; [|done]. exists n. split; [done|]. congruence.
  - intros [= <- <- <- <- <-] Hway.
    apply andb_false_iff in Hgo as [Hgo|Hgo].
    + apply bool_decide_eq_false in Hgo. by destruct Hgo.
    + apply bool_decide_eq_false in Hgo.
      destruct rt1; [|simpl in Hgo; lia].
      exists e0, [], n. by repeat split.
Qed.

Lemma track_progress_lookup_failed_inv f idx f' :
  let g := graph (cmdr f) in
  let last := last_waypt (navstate f) in
  track_progress f = Ok (lookup_failed idx f') →
  last ≠ current_way f ∧
  get_node_by_index g idx = None ∧
  ∃ e0 pre edge post,
    route (cmdr f) = e0 :: pre ++ edge :: post ∧
    Forall (λ x, ∃ m, get_node_by_index g (startnode_index x) = Some m ∧
                      id m ≠ last) pre ∧
    (startnode_index edge = idx ∨
     (post = [] ∧ endnode_index edge = idx ∧
      ∃ m, get_node_by_index g (startnode_index edge) = Some m ∧
           id m ≠ last)).
Proof.
  intros g last. unfold track_progress. fold last g.
  case_decide as Hne; [|done].
  destruct (walk_loop _ _ _ _ _ _ _ _) as [rt edge way g1 g2|i rt way|e]
    eqn:Hwalk; [| |done].
  - case_decide as Hway; [|done].
    destruct (get_node_by_index g (endnode_index edge)) eqn:Hend; [done|].
    intros [= <- _].
    apply walk_loop_exit_inv in Hwalk
      as (e0 & pre & m & Hrt & _ & Hpre & Hm & Hid); [|done].
    split; [done|]. split; [done|].
    exists e0, pre, edge, []. split; [done|]. split; [done|].
    right. split; [done|]. split; [done|]. exists m. split; [done|].
    congruence.
  - intros [= <- _].
    apply walk_loop_miss_inv in Hwalk
      as (e0 & pre & edge & post & Hrt & _ & Hpre & Hidx & Hnone).
    split; [done|]. split; [done|].
    exists e0, pre, edge, post. split; [done|]. split; [done|]. by left.
Qed.

(** *** Ticking off checkpoints *)

Lemma select_event_no_advance finished g1 f :
  count_call call_next_checkpoint (calls (snd (select_event finished g1 f))) =
  count_call call_next_checkpoint (calls f).
Proof.
  unfold select_event. rewrite cmdr_replan_route_spec.
  repeat (case_decide || case_match); simplify_eq/=;
    rewrite ?count_call_snoc; simpl; lia.
Qed.

Lemma advance_checkpoints_count g1 g2 f :
  count_call call_next_checkpoint (calls (snd (advance_checkpoints g1 g2 f))) =
  (count_call call_next_checkpoint (calls f) +
   if g1 then if g2 then 2 else 1 else 0)%nat.
Proof.
  unfold advance_checkpoints. rewrite !cmdr_next_checkpoint_spec.
  destruct g1, g2; simpl; rewrite ?cmdr_next_checkpoint_spec;
    simpl; rewrite ?count_call_snoc; simpl; lia.
Qed.

(** C3, as the code has it.  After the walk the checkpoint sequence is
    advanced once when [new_goal1] alone is set, twice when both flags are
    set, with [finished] taken from the last advance, and not at all when
    [new_goal1] is clear, whether or not [new_goal2] is set; these are all
    the advances [current_event] makes in that cycle. *)
Theorem checkpoints_advanced f new_goal1 new_goal2 f1 :
  route (cmdr f) ≠ [] →
  track_progress f = Ok (tracked new_goal1 new_goal2 f1) →
  advance_checkpoints new_goal1 new_goal2 f1 =
    match new_goal1, new_goal2 with
    | false, _ => (false, f1)
    | true, false =>
        let '(more, f2) := cmdr_next_checkpoint f1 in (negb more, f2)
    | true, true =>
        let '(_, f2) := cmdr_next_checkpoint f1 in
        let '(more, f3) := cmdr_next_checkpoint f2 in (negb more, f3)
    end ∧
  ∃ event f4,
    current_event f = Ok (event, f4) ∧
    count_call call_next_checkpoint (calls f4) =
    (count_call call_next_checkpoint (calls f) +
     if new_goal1 then if new_goal2 then 2 else 1 else 0)%nat.
Proof.
  intros Hrt Htrack. split.
  - unfold advance_checkpoints. rewrite !cmdr_next_checkpoint_spec.
    destruct new_goal1, new_goal2; simpl;
      by rewrite ?cmdr_next_checkpoint_spec.
  - rewrite (current_event_tracked f _ _ _ Hrt Htrack).
    apply track_progress_tracked in Htrack as [_ Hcalls].
    destruct (select_event _ new_goal1 _) as [event f4] eqn:Hsel.
    exists event, f4. split; [done|].
    change f4 with (snd (event, f4)). rewrite <- Hsel.
    by rewrite select_event_no_advance, advance_checkpoints_count, Hcalls.
Qed.

(** *** What the actions leave alone *)

(** No action writes [state], [current_way] or [old_replan], and none
    advances the checkpoint sequence. *)
Lemma invoke_registers a event f :
  let f' := snd (invoke a event f) in
  state f' = state f ∧ prev f' = prev f ∧
  current_way f' = current_way f ∧ old_replan f' = old_replan f ∧
  count_call call_next_checkpoint (calls f') =
    count_call call_next_checkpoint (calls f).
Proof.
  destruct a; simpl;
    unfold ActionError, ActionFail, ActionWait, ActionInDone, ActionInInit,
      ActionInRoad, ActionToDone, ActionToRoad, BlockedInRoad, ReplanInRoad,
      InitToRoad, ActionInRoad, ActionInDone, ActionWait, ActionFail;
    rewrite ?cmdr_replan_route_spec; repeat case_bool_decide;
    rewrite ?cmdr_prepare_order_spec; simpl;
    rewrite ?count_call_snoc; simpl; repeat split; lia.
Qed.

(** The steady-state actions do not ask for a new plan. *)
Lemma dispatch_None_no_replan f :
  count_call call_replan_route (calls (snd (dispatch CmdrEvent.None f))) =
  count_call call_replan_route (calls f).
Proof.
  unfold dispatch. destruct (state f); simpl;
    unfold ActionInDone, ActionInInit, ActionInRoad;
    rewrite ?cmdr_prepare_order_spec; simpl;
    rewrite ?count_call_snoc; simpl; lia.
Qed.

Lemma dispatch_registers event f :
  let f' := snd (dispatch event f) in
  state f' = next (ttable event (state f)) ∧ prev f' = state f ∧
  current_way f' = current_way f ∧ old_replan f' = old_replan f ∧
  count_call call_next_checkpoint (calls f') =
    count_call call_next_checkpoint (calls f).
Proof.
  unfold dispatch.
  pose proof (invoke_registers (action (ttable event (state f))) event
    (set_state (next (ttable event (state f))) (set_prev (state f) f))).
  simpl in *. intuition.
Qed.

(** *** Choosing the event *)

(** C2, as the code has it.  In a cycle that reaches the choice of the
    event with [finished] false, a replan-request waypoint that differs
    from [old_replan] and is not the null identifier, together with the
    road-blocked flag, makes [current_event] return Blocked, whatever the
    goal flags are and whatever a new plan would give; in state Road the
    table then selects [BlockedInRoad], which [control] runs. *)
Theorem blocked_has_priority nav f new_goal1 new_goal2 f1 f2 :
  state f = CmdrState.Road →
  route (cmdr f) ≠ [] →
  track_progress (set_navstate nav f) = Ok (tracked new_goal1 new_goal2 f1) →
  advance_checkpoints new_goal1 new_goal2 f1 = (false, f2) →
  replan_waypt nav ≠ old_replan f →
  replan_waypt nav ≠ ElementID_null →
  road_blocked nav = true →
  current_event (set_navstate nav f) =
    Ok (CmdrEvent.Blocked, set_old_replan (replan_waypt nav) f2) ∧
  action (ttable CmdrEvent.Blocked CmdrState.Road) = Action.BlockedInRoad ∧
  control nav f =
    Ok (BlockedInRoad CmdrEvent.Blocked
          (set_state CmdrState.Road
             (set_prev CmdrState.Road
                (set_old_replan (replan_waypt nav) f2)))).
Proof.
  intros Hs Hrt Htrack Hadv Hnew Hnull Hblocked.
  pose proof (track_progress_tracked _ _ _ _ Htrack)
    as [(Hs1 & _ & Hn1 & Ho1) _].
  pose proof (advance_checkpoints_registers new_goal1 new_goal2 f1)
    as (Hs2 & _ & Hn2 & Ho2).
  rewrite Hadv in Hs2, Hn2, Ho2. simpl in *.
  assert (Hev : current_event (set_navstate nav f) =
            Ok (CmdrEvent.Blocked, set_old_replan (replan_waypt nav) f2)).
  { rewrite (current_event_tracked (set_navstate nav f) _ _ _ Hrt Htrack), Hadv. simpl.
    unfold select_event. rewrite Hn2, Hn1, Ho2, Ho1.
    rewrite decide_True by done. simpl.
    rewrite decide_True by done. by rewrite Hblocked. }
  split; [done|]. split; [done|].
  unfold control. rewrite Hev. simpl. unfold dispatch. simpl.
  rewrite Hs2, Hs1, Hs. reflexivity.
Qed.

(** C9. In a cycle that reaches the choice of the event with [finished]
    false and a replan-request waypoint that differs from [old_replan],
    [old_replan] takes the new value whichever event comes out, and keeps
    it to the end of the cycle.  When the new value is the null
    identifier the event is None, and neither [current_event] nor the
    action asks for a new plan, even with [new_goal1] set. *)
Theorem replan_request_recorded nav f new_goal1 new_goal2 f1 f2 :
  route (cmdr f) ≠ [] →
  track_progress (set_navstate nav f) = Ok (tracked new_goal1 new_goal2 f1) →
  advance_checkpoints new_goal1 new_goal2 f1 = (false, f2) →
  replan_waypt nav ≠ old_replan f →
  ∃ event f3 o f4,
    current_event (set_navstate nav f) = Ok (event, f3) ∧
    old_replan f3 = replan_waypt nav ∧
    control nav f = Ok (o, f4) ∧
    old_replan f4 = replan_waypt nav ∧
    (replan_waypt nav = ElementID_null →
     event = CmdrEvent.None ∧
     count_call call_replan_route (calls f4) =
       count_call call_replan_route (calls f)).
Proof.
  intros Hrt Htrack Hadv Hnew.
  pose proof (track_progress_tracked _ _ _ _ Htrack)
    as [(_ & _ & Hn1 & Ho1) Hc1].
  pose proof (advance_checkpoints_registers new_goal1 new_goal2 f1)
    as (_ & _ & Hn2 & Ho2).
  pose proof (advance_checkpoints_no_replan new_goal1 new_goal2 f1) as Hc2.
  rewrite Hadv in Hn2, Ho2, Hc2. simpl in *.
  pose proof (current_event_tracked (set_navstate nav f) _ _ _ Hrt Htrack) as Hev.
  rewrite Hadv in Hev. simpl in Hev.
  unfold select_event in Hev. rewrite Hn2, Hn1, Ho2, Ho1 in Hev.
  rewrite decide_True in Hev by done. simpl in Hev.
  set (f3 := set_old_replan (replan_waypt nav) f2) in *.
  destruct (decide (replan_waypt nav ≠ ElementID_null)) as [Hnull|Hnull].
  - set (event := if road_blocked nav then CmdrEvent.Blocked
                  else CmdrEvent.Replan).
    exists event, f3, (fst (dispatch event f3)), (snd (dispatch event f3)).
    split; [by subst event; destruct (road_blocked nav)|].
    split; [done|]. split.
    { unfold control. rewrite Hev. subst event.
      destruct (road_blocked nav); simpl; by destruct (dispatch _ f3). }
    split; [|done].
    by pose proof (dispatch_registers event f3) as (_ & _ & _ & -> & _).
  - exists CmdrEvent.None, f3, (fst (dispatch CmdrEvent.None f3)),
      (snd (dispatch CmdrEvent.None f3)).
    split; [done|]. split; [done|]. split.
    { unfold control. rewrite Hev. simpl. by destruct (dispatch _ f3). }
    split.
    { by pose proof (dispatch_registers CmdrEvent.None f3)
        as (_ & _ & _ & -> & _). }
    intros _. split; [done|].
    rewrite dispatch_None_no_replan. subst f3. simpl. by rewrite Hc2, Hc1.
Qed.

(** *** Leaving Init *)

Lemma current_event_no_plan f :
  route (cmdr f) = [] → current_event f = Ok (enter_lane f).
Proof.
  intros Hrt. unfold current_event. by rewrite Hrt.
Qed.

Lemma enter_lane_spec f :
  let at_goal := decide (last_waypt (navstate f) = id (goal (cmdr f))) in
  let f' := snd (enter_lane f) in
  fst (enter_lane f) = CmdrEvent.EnterLane ∧
  current_way f' = last_waypt (navstate f) ∧
  state f' = state f ∧
  cmdr f' = (if at_goal then snd (next_checkpoint (cmdr f)) else cmdr f) ∧
  calls f' = calls f ++ (if at_goal then [call_next_checkpoint] else []).
Proof.
  unfold enter_lane. simpl. rewrite cmdr_next_checkpoint_spec. simpl.
  destruct (decide (last_waypt (navstate f) = id (goal (cmdr f))));
    simpl; rewrite ?app_nil_r; by repeat split.
Qed.

(** C4. A cycle that starts in Init with an empty route sets
    [current_way] to the last reported waypoint, advances the checkpoint
    sequence once if that waypoint is the first goal and not at all
    otherwise, has EnterLane for its event and ends in state Road. *)
Theorem init_enters_lane nav f :
  state f = CmdrState.Init →
  route (cmdr f) = [] →
  let at_goal := decide (last_waypt nav = id (goal (cmdr f))) in
  ∃ f1 o f2,
    current_event (set_navstate nav f) = Ok (CmdrEvent.EnterLane, f1) ∧
    cmdr f1 = (if at_goal then snd (next_checkpoint (cmdr f)) else cmdr f) ∧
    control nav f = Ok (o, f2) ∧
    current_way f2 = last_waypt nav ∧
    state f2 = CmdrState.Road ∧
    count_call call_next_checkpoint (calls f2) =
      (count_call call_next_checkpoint (calls f) +
       if at_goal then 1 else 0)%nat.
Proof.
  intros Hs Hrt at_goal.
  pose proof (current_event_no_plan (set_navstate nav f) Hrt) as Hev.
  pose proof (enter_lane_spec (set_navstate nav f))
    as (He & Hway & Hs1 & Hcmdr & Hcalls).
  destruct (enter_lane (set_navstate nav f)) as [event f1] eqn:Henter.
  simpl in *. subst event.
  pose proof (dispatch_registers CmdrEvent.EnterLane f1)
    as (Hs2 & _ & Hway2 & _ & Hcount).
  exists f1, (fst (dispatch CmdrEvent.EnterLane f1)),
    (snd (dispatch CmdrEvent.EnterLane f1)).
  split; [done|]. split; [done|]. split.
  { unfold control. rewrite Hev. simpl. by destruct (dispatch _ f1). }
  split; [by rewrite Hway2|]. split.
  { by rewrite Hs2, Hs1, Hs. }
  rewrite Hcount, Hcalls. fold at_goal. destruct at_goal.
  - by rewrite count_call_snoc.
  - rewrite app_nil_r. lia.
Qed.

(** What the code does when the first plan cannot be made: the cycle that
    leaves Init returns the order Abort, as it should, but the state at the
    end of that cycle is Road, the one the table gives for EnterLane in
    Init, because [control] writes the state before it calls [InitToRoad]
    and [InitToRoad] cannot take it to Done.  The two cells that run
    [ActionFail] both lead to Done; this path does not. *)
Theorem first_plan_failure nav f :
  state f = CmdrState.Init →
  route (cmdr f) = [] →
  fst (replan_route (cmdr (snd (enter_lane (set_navstate nav f))))) = false →
  ∃ f2,
    control nav f = Ok ({| behavior := Behavior.Abort |}, f2) ∧
    state f2 = CmdrState.Road ∧
    prev f2 = CmdrState.Init.
Proof.
  intros Hs Hrt Hfail.
  pose proof (current_event_no_plan (set_navstate nav f) Hrt) as Hev.
  pose proof (enter_lane_spec (set_navstate nav f)) as (He & _ & Hs1 & _).
  destruct (enter_lane (set_navstate nav f)) as [event f1] eqn:Henter.
  simpl in *. subst event.
  exists (snd (dispatch CmdrEvent.EnterLane f1)).
  pose proof (dispatch_registers CmdrEvent.EnterLane f1)
    as (Hs2 & Hp2 & _).
  rewrite Hs1, Hs in Hs2, Hp2.
  split; [|done].
  unfold control. rewrite Hev. simpl. unfold dispatch.
  rewrite Hs1, Hs, ttable_EnterLane_Init. simpl. unfold InitToRoad.
  rewrite cmdr_replan_route_spec. simpl. by rewrite Hfail.
Qed.

(** *** Replanning on the road *)

(** C6. In a cycle in state Road whose event is Blocked or Replan, when
    [replan_route] returns false the order is the one [ActionWait] makes,
    a Go order prepared right after the failed attempt with no further
    attempt, and the cycle ends in state Road. *)
Theorem replan_failure_waits nav f event f1 :
  let f2 := set_state CmdrState.Road (set_prev CmdrState.Road f1) in
  let f3 :=
    match event with
    | CmdrEvent.Blocked =>
        set_cmdr (add_block (replan_waypt nav) (cmdr f2)) f2
    | _ => set_navstate (set_last_waypt (replan_waypt nav) nav) f2
    end in
  state f = CmdrState.Road →
  current_event (set_navstate nav f) = Ok (event, f1) →
  event = CmdrEvent.Blocked ∨ event = CmdrEvent.Replan →
  fst (replan_route (cmdr f3)) = false →
  (∀ c, behavior (fst (prepare_order Behavior.Go c)) = Behavior.Go) →
  ∃ o f4,
    control nav f = Ok (o, f4) ∧
    (o, f4) = ActionWait event (snd (cmdr_replan_route f3)) ∧
    behavior o = Behavior.Go ∧
    state f4 = CmdrState.Road ∧
    calls f4 =
      calls f1 ++ [call_replan_route; call_prepare_order Behavior.Go].
Proof.
  intros f2 f3 Hs Hev Hevent Hfail Hgo.
  pose proof (current_event_registers _ _ _ Hev) as (Hs1 & _ & Hn1).
  simpl in Hs1, Hn1.
  assert (Hdispatch : dispatch event f1 =
            ActionWait event (snd (cmdr_replan_route f3))).
  { unfold dispatch. rewrite Hs1, Hs.
    destruct Hevent as [-> | ->]; simpl;
      unfold BlockedInRoad, ReplanInRoad; simpl; rewrite Hn1;
      fold f2; rewrite !cmdr_replan_route_spec; simpl;
      subst f3; simpl in Hfail; by rewrite Hfail. }
  exists (fst (dispatch event f1)), (snd (dispatch event f1)).
  split. { unfold control. rewrite Hev. simpl. by destruct (dispatch _ f1). }
  split. { rewrite <- Hdispatch. by destruct (dispatch _ f1). }
  rewrite Hdispatch. unfold ActionWait.
  rewrite cmdr_prepare_order_spec, cmdr_replan_route_spec. simpl.
  split; [apply Hgo|].
  subst f3 f2. destruct Hevent as [-> | ->]; simpl;
    by rewrite <- app_assoc.
Qed.
End Properties.

(** * Runs on the small road network *)

(** The planner of these runs finds no route: every [replan_route] fails. *)

(** A cycle in Done: the vehicle moves from waypoint 100 to 101 along the
    plan, the event is None, the order is Quit and the state stays Done. *)
Lemma done_is_absorbing_witness :
  let f := Scenario.fsm CmdrState.Done 100 0
             [Scenario.edge 0 1; Scenario.edge 1 2] [105] in
  let nav := Scenario.nav 101 0 false in
  state f = CmdrState.Done ∧
  ∃ f2,
    control (api := Scenario.api None) nav f =
      Ok ({| behavior := Behavior.Quit |}, f2) ∧
    state f2 = CmdrState.Done.
Proof.
  intros f nav. split; [reflexivity|].
  edestruct (done_is_absorbing (api := Scenario.api None) nav f
               CmdrEvent.None) as (f2 & Hctl & _ & Hs);
    [reflexivity | reflexivity | exists f2; split; [exact Hctl | exact Hs]].
Defined.

(** C2 fails as stated.  In state Road the request changes from waypoint
    107 to the null identifier while the road-blocked flag is set: the walk
    and the checkpoints leave [finished] false, yet the event is None. *)
Lemma blocked_needs_a_waypoint :
  let f := Scenario.fsm CmdrState.Road 100 107 [Scenario.edge 0 1] [105] in
  let nav := Scenario.nav 100 Scenario.null true in
  let f0 := set_navstate nav f in
  state f = CmdrState.Road ∧
  replan_waypt nav ≠ old_replan f ∧
  road_blocked nav = true ∧
  (∃ g1 g2 f1 f2,
     track_progress (api := Scenario.api None) f0 = Ok (tracked g1 g2 f1) ∧
     advance_checkpoints (api := Scenario.api None) g1 g2 f1 = (false, f2)) ∧
  (∃ f3, current_event (api := Scenario.api None) f0 = Ok (CmdrEvent.None, f3)) ∧
  ¬ (∃ f3, current_event (api := Scenario.api None) f0 =
             Ok (CmdrEvent.Blocked, f3)).
Proof.
  intros f nav f0. split; [reflexivity|]. split; [discriminate|].
  split; [reflexivity|]. split.
  { eexists false, false, _, _. split; reflexivity. }
  split.
  { eexists. reflexivity. }
  intros [f3 H]. discriminate H.
Qed.

(** The same cycle with the request changing from null to waypoint 107,
    while the vehicle has just reached its checkpoint 101 and no new plan
    can be made: the event is Blocked. *)
Lemma blocked_has_priority_witness :
  let f := Scenario.fsm CmdrState.Road 100 Scenario.null
             [Scenario.edge 0 1; Scenario.edge 1 2] [101; 105] in
  let nav := Scenario.nav 101 107 true in
  let f0 := set_navstate nav f in
  (∃ f1 f2,
     track_progress (api := Scenario.api None) f0 = Ok (tracked true false f1) ∧
     advance_checkpoints (api := Scenario.api None) true false f1 = (false, f2)) ∧
  fst (replan_route (Collaborators := Scenario.api None) (cmdr f)) = false ∧
  ∃ f3, current_event (api := Scenario.api None) f0 = Ok (CmdrEvent.Blocked, f3).
Proof.
  intros f nav f0. split.
  { eexists _, _. split; reflexivity. }
  split; [reflexivity|].
  edestruct (blocked_has_priority (api := Scenario.api None) nav f true false)
    as (Hev & _ & _);
    [reflexivity | discriminate | reflexivity | reflexivity
    | discriminate | discriminate | reflexivity | ].
  eexists. exact Hev.
Defined.

(** C3 fails as stated.  The checkpoints are 105 then 102 and the vehicle
    reports 102: the walk sets [new_goal2] alone, and the checkpoint
    sequence is not advanced. *)
Lemma lookahead_alone_does_not_advance :
  let f := Scenario.fsm CmdrState.Road 100 Scenario.null
             [Scenario.edge 0 1; Scenario.edge 1 2; Scenario.edge 2 3]
             [105; 102] in
  let f0 := set_navstate (Scenario.nav 102 Scenario.null false) f in
  ∃ f1,
    track_progress (api := Scenario.api None) f0 = Ok (tracked false true f1) ∧
    let f2 := snd (advance_checkpoints (api := Scenario.api None) false true f1) in
    count_call call_next_checkpoint (calls f2) = 0%nat ∧
    mission (cmdr f2) = [105; 102] ∧
    ∃ f3, current_event (api := Scenario.api None) f0 = Ok (CmdrEvent.None, f3) ∧
          calls f3 = [] ∧ mission (cmdr f3) = [105; 102].
Proof.
  intros f f0. eexists. split; [reflexivity|].
  split; [reflexivity|]. split; [reflexivity|].
  eexists. split; [reflexivity|]. split; reflexivity.
Qed.

(** C5 fails as stated: EnterLane does not leave the FSM in Init, and in
    Road it does not run [InitToRoad]. *)
Lemma enter_lane_row_differs :
  next (ttable CmdrEvent.EnterLane CmdrState.Init) ≠ CmdrState.Init ∧
  action (ttable CmdrEvent.EnterLane CmdrState.Road) ≠ Action.InitToRoad.
Proof. split; discriminate. Qed.

(** C8.  The claim asks for an Abort order and the terminal state Done
    when the first plan fails; the code gives the Abort order but misses
    the state.  The FSM is in Init with no plan and none can be made: the
    order is Abort and the cycle ends in Road, not in Done; the next cycle
    on the same snapshot orders Go, still in Road, without asking for a
    plan again. *)
Lemma first_plan_failure_ends_in_Road :
  let f := Scenario.fsm CmdrState.Init Scenario.null Scenario.null [] [105] in
  let nav := Scenario.nav 100 Scenario.null false in
  state f = CmdrState.Init ∧
  route (cmdr f) = [] ∧
  (∃ o f2,
     control (api := Scenario.api None) nav f = Ok (o, f2) ∧
     calls f2 = [call_replan_route] ∧
     behavior o = Behavior.Abort ∧
     state f2 = CmdrState.Road ∧
     state f2 ≠ CmdrState.Done) ∧
  ∃ os f3,
    cycles (api := Scenario.api None) [nav; nav] f = Ok (os, f3) ∧
    map behavior os = [Behavior.Abort; Behavior.Go] ∧
    state f3 = CmdrState.Road ∧
    calls f3 = [call_replan_route; call_prepare_order Behavior.Go].
Proof.
  intros f nav. split; [reflexivity|]. split; [reflexivity|]. split.
  - eexists _, _. split; [reflexivity|]. split; [reflexivity|].
    split; [reflexivity|]. split; [reflexivity|discriminate].
  - eexists _, _. split; [reflexivity|]. split; [reflexivity|].
    split; reflexivity.
Qed.

Lemma first_plan_failure_witness :
  let f := Scenario.fsm CmdrState.Init Scenario.null Scenario.null [] [105] in
  let nav := Scenario.nav 100 Scenario.null false in
  state f = CmdrState.Init ∧ route (cmdr f) = [] ∧
  ∃ f2,
    control (api := Scenario.api None) nav f =
      Ok ({| behavior := Behavior.Abort |}, f2) ∧
    state f2 = CmdrState.Road ∧ prev f2 = CmdrState.Init.
Proof.
  intros f nav. split; [reflexivity|]. split; [reflexivity|].
  apply (first_plan_failure (api := Scenario.api None) nav f); reflexivity.
Defined.

(** The first cycle of a mission whose first checkpoint, 105, is where the
    vehicle stands: the checkpoint is ticked off once and the FSM is on the
    road. *)
Lemma init_enters_lane_witness :
  let f := Scenario.fsm CmdrState.Init Scenario.null Scenario.null []
             [105; 106] in
  let nav := Scenario.nav 105 Scenario.null false in
  state f = CmdrState.Init ∧ route (cmdr f) = [] ∧
  ∃ f1 o f2,
    current_event (api := Scenario.api None) (set_navstate nav f) =
      Ok (CmdrEvent.EnterLane, f1) ∧
    mission (cmdr f1) = [106] ∧
    control (api := Scenario.api None) nav f = Ok (o, f2) ∧
    current_way f2 = 105 ∧
    state f2 = CmdrState.Road ∧
    count_call call_next_checkpoint (calls f2) = 1%nat.
Proof.
  intros f nav. split; [reflexivity|]. split; [reflexivity|].
  destruct (init_enters_lane (api := Scenario.api None) nav f
              eq_refl eq_refl)
    as (f1 & o & f2 & Hev & Hcmdr & Hctl & Hway & Hs & Hcount).
  exists f1, o, f2. split; [exact Hev|]. split; [by rewrite Hcmdr|].
  split; [exact Hctl|]. split; [exact Hway|]. split; [exact Hs|exact Hcount].
Defined.

(** A blocked road at waypoint 107 and no other route: the order is Go,
    prepared after the one failed attempt, and the FSM stays in Road. *)
Lemma replan_failure_waits_witness :
  let f := Scenario.fsm CmdrState.Road 100 Scenario.null
             [Scenario.edge 0 1; Scenario.edge 1 2] [105] in
  let nav := Scenario.nav 100 107 true in
  state f = CmdrState.Road ∧
  (∃ f1, current_event (api := Scenario.api None) (set_navstate nav f) =
           Ok (CmdrEvent.Blocked, f1)) ∧
  ∃ o f4,
    control (api := Scenario.api None) nav f = Ok (o, f4) ∧
    behavior o = Behavior.Go ∧
    state f4 = CmdrState.Road ∧
    blockages (cmdr f4) = [107] ∧
    calls f4 = [call_replan_route; call_prepare_order Behavior.Go].
Proof.
  intros f nav. split; [reflexivity|]. split; [eexists; reflexivity|].
  edestruct (replan_failure_waits (api := Scenario.api None) nav f
               CmdrEvent.Blocked)
    as (o & f4 & Hctl & Hwait & Hgo & Hs & Hcalls);
    [reflexivity | reflexivity | by left | reflexivity | reflexivity | ].
  exists o, f4. split; [exact Hctl|]. split; [exact Hgo|].
  split; [exact Hs|]. split; [|exact Hcalls].
  by injection Hwait as _ ->.
Defined.

(** The plan runs over an edge whose start node, index 11, is not in the
    network, two edges beyond the front one: the event is Fail, the order
    Abort, the state Done. *)
Lemma lookup_failure_aborts_witness :
  let f := Scenario.fsm CmdrState.Road 100 Scenario.null
             [Scenario.edge 0 1; Scenario.edge 1 2; Scenario.edge 11 12;
              Scenario.edge 2 3] [105] in
  let nav := Scenario.nav 103 Scenario.null false in
  state f = CmdrState.Road ∧
  last_waypt nav ≠ current_way f ∧
  get_node_by_index (graph (cmdr f)) 11 = None ∧
  ∃ f1 f2,
    current_event (api := Scenario.api None) (set_navstate nav f) =
      Ok (CmdrEvent.Fail, f1) ∧
    route (cmdr f1) = [Scenario.edge 11 12; Scenario.edge 2 3] ∧
    control (api := Scenario.api None) nav f =
      Ok ({| behavior := Behavior.Abort |}, f2) ∧
    state f2 = CmdrState.Done.
Proof.
  intros f nav. split; [reflexivity|]. split; [discriminate|].
  split; [reflexivity|].
  destruct (lookup_failure_aborts (api := Scenario.api None) nav f
              (Scenario.edge 0 1) [Scenario.edge 1 2] (Scenario.edge 11 12)
              [Scenario.edge 2 3] 11)
    as (f1 & f2 & Hev & _ & Hrt & Hctl & _ & Hs).
  - reflexivity.
  - discriminate.
  - reflexivity.
  - constructor; [|constructor].
    exists (Scenario.node 1). split; [reflexivity|discriminate].
  - by left.
  - reflexivity.
  - exists f1, f2. split; [exact Hev|]. split; [exact Hrt|].
    split; [exact Hctl|exact Hs].
Defined.

(** The same failure for the end node of the last edge: the vehicle
    reports waypoint 105, the plan ends with an edge from node 1 to the
    unknown node 12. *)
Lemma lookup_failure_at_end_node :
  let f := Scenario.fsm CmdrState.Road 100 Scenario.null
             [Scenario.edge 0 1; Scenario.edge 1 12] [105] in
  let nav := Scenario.nav 105 Scenario.null false in
  (∃ f1, track_progress (api := Scenario.api None) (set_navstate nav f) =
           Ok (lookup_failed 12 f1) ∧ current_way f1 = 101) ∧
  ∃ f2,
    control (api := Scenario.api None) nav f =
      Ok ({| behavior := Behavior.Abort |}, f2) ∧
    state f2 = CmdrState.Done.
Proof.
  intros f nav. split.
  - eexists. split; reflexivity.
  - eexists. split; reflexivity.
Qed.

(** The request is withdrawn (from waypoint 107 to null) in the cycle in
    which checkpoint 101 is reached: [old_replan] becomes null, the event
    is None and no plan is asked for. *)
Lemma replan_request_recorded_witness :
  let f := Scenario.fsm CmdrState.Road 100 107
             [Scenario.edge 0 1; Scenario.edge 1 2] [101; 105] in
  let nav := Scenario.nav 101 Scenario.null true in
  route (cmdr f) ≠ [] ∧ replan_waypt nav ≠ old_replan f ∧
  (∃ f1 f2,
     track_progress (api := Scenario.api None) (set_navstate nav f) =
       Ok (tracked true false f1) ∧
     advance_checkpoints (api := Scenario.api None) true false f1 = (false, f2)) ∧
  ∃ f3 o f4,
    current_event (api := Scenario.api None) (set_navstate nav f) =
      Ok (CmdrEvent.None, f3) ∧
    old_replan f3 = Scenario.null ∧
    control (api := Scenario.api None) nav f = Ok (o, f4) ∧
    old_replan f4 = Scenario.null ∧
    count_call call_replan_route (calls f4) = 0%nat.
Proof.
  intros f nav. split; [discriminate|]. split; [discriminate|]. split.
  { eexists _, _. split; reflexivity. }
  edestruct (replan_request_recorded (api := Scenario.api None) nav f
               true false)
    as (event & f3 & o & f4 & Hev & Hold & Hctl & Hold4 & Hnull);
    [discriminate | reflexivity | reflexivity | discriminate | ].
  destruct (Hnull eq_refl) as [-> Hcount].
  exists f3, o, f4. split; [exact Hev|]. split; [exact Hold|].
  split; [exact Hctl|]. split; [exact Hold4|exact Hcount].
Defined.

(** The vehicle passes the checkpoints 101 and 102 in one cycle: both are
    ticked off and 103 is the goal that remains. *)
Lemma checkpoints_advanced_witness :
  let f := set_navstate (Scenario.nav 102 Scenario.null false)
             (Scenario.fsm CmdrState.Road 100 Scenario.null
                [Scenario.edge 0 1; Scenario.edge 1 2; Scenario.edge 2 3]
                [101; 102; 103]) in
  route (cmdr f) ≠ [] ∧
  ∃ f1,
    track_progress (api := Scenario.api None) f = Ok (tracked true true f1) ∧
    mission (cmdr (snd (advance_checkpoints (api := Scenario.api None)
                          true true f1))) = [103] ∧
    ∃ event f4,
      current_event (api := Scenario.api None) f = Ok (event, f4) ∧
      count_call call_next_checkpoint (calls f4) = 2%nat.
Proof.
  intros f. split; [discriminate|].
  eexists. split; [reflexivity|]. split; [reflexivity|].
  edestruct (checkpoints_advanced (api := Scenario.api None) f true true)
    as (_ & event & f4 & Hev & Hcount); [discriminate | reflexivity | ].
  exists event, f4. split; [exact Hev | exact Hcount].
Defined.

(** A plan of one edge and a vehicle that has moved on: reading the front
    of the route after the removal is out of range. *)
Lemma route_access_in_bounds_witness :
  let f := set_navstate (Scenario.nav 101 Scenario.null false)
             (Scenario.fsm CmdrState.Road 100 Scenario.null
                [Scenario.edge 0 1] [105]) in
  length (route (cmdr f)) = 1%nat ∧
  last_waypt (navstate f) ≠ current_way f ∧
  current_event (api := Scenario.api None) f = Raise out_of_range.
Proof.
  intros f. split; [reflexivity|]. split; [discriminate|].
  apply (route_access_in_bounds (api := Scenario.api None) f);
    [reflexivity | discriminate].
Defined.

(** * Further properties of the FSM *)

Lemma count_call_app c l k :
  count_call c (l ++ k) = (count_call c l + count_call c k)%nat.
Proof. unfold count_call. by rewrite filter_app, length_app. Qed.

Lemma count_call_nil c : count_call c [] = 0%nat.
Proof. reflexivity. Qed.

Lemma count_call_single c x :
  count_call c [x] = if decide (x = c) then 1%nat else 0%nat.
Proof. apply (count_call_snoc c x []). Qed.

Section Cycle.
Context {ElementID Mission : Type} {api : Collaborators ElementID Mission}.

#[local] Abbreviation FSM := (CmdrFSM ElementID Mission).

Implicit Types (f : FSM) (nav : NavigatorState ElementID).
Implicit Types (event : CmdrEvent.event_t).

(** *** The three ways through [current_event] *)

Lemma current_event_inv f event f' :
  current_event f = Ok (event, f') →
  (route (cmdr f) = [] ∧ enter_lane f = (event, f')) ∨
  (route (cmdr f) ≠ [] ∧ event = CmdrEvent.Fail ∧
   ∃ idx, track_progress f = Ok (lookup_failed idx f')) ∨
  (route (cmdr f) ≠ [] ∧
   ∃ g1 g2 f1,
     track_progress f = Ok (tracked g1 g2 f1) ∧
     select_event (fst (advance_checkpoints g1 g2 f1)) g1
       (snd (advance_checkpoints g1 g2 f1)) = (event, f')).
Proof.
  unfold current_event. case_bool_decide as Hlen.
  - intros H. left. split; [by apply nil_length_inv|]. congruence.
  - assert (route (cmdr f) ≠ []) as Hrt by (by intros Hnil; rewrite Hnil in Hlen).
    destruct (track_progress f) as [[g1 g2 f1|idx f1]|e] eqn:Htrack;
      simpl; [| |done].
    + intros H. right; right. split; [done|]. exists g1, g2, f1.
      split; [done|].
      destruct (advance_checkpoints g1 g2 f1); simpl in *. congruence.
    + intros [= <- <-]. right; left. split; [done|]. split; [done|].
      by exists idx.
Qed.

Lemma select_event_inv finished g1 f event f' :
  select_event finished g1 f = (event, f') →
  (finished = true ∧ event = CmdrEvent.Done ∧ f' = f) ∨
  (finished = false ∧ replan_waypt (navstate f) ≠ old_replan f ∧
   f' = set_old_replan (replan_waypt (navstate f)) f ∧
   event = (if decide (replan_waypt (navstate f) ≠ ElementID_null)
            then if road_blocked (navstate f) then CmdrEvent.Blocked
                 else CmdrEvent.Replan
            else CmdrEvent.None)) ∨
  (finished = false ∧ replan_waypt (navstate f) = old_replan f ∧
   g1 = true ∧ f' = snd (cmdr_replan_route f) ∧
   event = (if fst (replan_route (cmdr f)) then CmdrEvent.None
            else CmdrEvent.Wait)) ∨
  (finished = false ∧ replan_waypt (navstate f) = old_replan f ∧
   g1 = false ∧ f' = f ∧ event = CmdrEvent.None).
Proof.
  unfold select_event. rewrite cmdr_replan_route_spec.
  destruct finished; [intros [= <- <-]; by left|].
  destruct (decide (replan_waypt (navstate f) ≠ old_replan f)) as [Hnew|Hold].
  - simpl. intros H. right; left. split; [done|]. split; [done|].
    repeat case_decide; destruct (road_blocked (navstate f));
      by simplify_eq.
  - apply dec_stable in Hold. destruct g1; simpl.
    + intros H. right; right; left.
      destruct (fst (replan_route (cmdr f))); by simplify_eq/=.
    + intros [= <- <-]. by right; right; right.
Qed.

Lemma control_inv nav f o f' :
  control nav f = Ok (o, f') →
  ∃ event f1,
    current_event (set_navstate nav f) = Ok (event, f1) ∧
    dispatch event f1 = (o, f') ∧
    state f1 = state f ∧ navstate f1 = nav.
Proof.
  unfold control.
  destruct (current_event (set_navstate nav f)) as [[event f1]|e] eqn:Hev;
    simpl; [|done].
  intros [= H]. exists event, f1.
  apply current_event_registers in Hev as (Hs & _ & Hn). by repeat split.
Qed.

Lemma control_intro nav f event f1 :
  current_event (set_navstate nav f) = Ok (event, f1) →
  control nav f = Ok (dispatch event f1).
Proof. intros Hev. unfold control. by rewrite Hev. Qed.

(** *** The event tells how the cycle went *)

Lemma current_event_EnterLane f f' :
  current_event f = Ok (CmdrEvent.EnterLane, f') → route (cmdr f) = [].
Proof.
  intros Hev.
  apply current_event_inv in Hev as [[Hrt _]|[(_ & [=] & _)|Hsel]]; [done|].
  destruct Hsel as (_ & g1 & g2 & f1 & _ & Hsel).
  apply select_event_inv in Hsel
    as [(_ & [=] & _)|[(_ & _ & _ & H)|[(_ & _ & _ & _ & H)|(_ & _ & _ & _ & [=])]]];
    repeat case_match; discriminate H.
Qed.

(** EnterLane is the event exactly when no plan has been made. *)
Theorem enter_lane_iff_no_plan f :
  (∃ f', current_event f = Ok (CmdrEvent.EnterLane, f')) ↔
  route (cmdr f) = [].
Proof.
  split.
  - intros [f' Hev]. by eapply current_event_EnterLane.
  - intros Hrt. rewrite current_event_no_plan by done.
    unfold enter_lane. by eexists.
Qed.

(** Fail is the event only when the plan names a node that the graph does
    not have; the FSM has made no call to the Commander by then. *)
Theorem fail_names_a_missing_node f f' :
  current_event f = Ok (CmdrEvent.Fail, f') →
  calls f' = calls f ∧
  ∃ edge idx,
    edge ∈ route (cmdr f) ∧
    (startnode_index edge = idx ∨ endnode_index edge = idx) ∧
    get_node_by_index (graph (cmdr f)) idx = None.
Proof.
  intros Hev.
  apply current_event_inv in Hev as [[_ [=]]|[(_ & _ & idx & Htrack)|Hsel]].
  - pose proof (track_progress_lookup_failed _ _ _ Htrack) as [_ Hcalls].
    apply track_progress_miss in Htrack as [Hnone (edge & Hin & Hidx)].
    split; [done|]. by exists edge, idx.
  - destruct Hsel as (_ & g1 & g2 & f1 & _ & Hsel).
    apply select_event_inv in Hsel
      as [(_ & [=] & _)|[(_ & _ & _ & H)|[(_ & _ & _ & _ & H)|(_ & _ & _ & _ & [=])]]];
      repeat case_match; discriminate H.
Qed.

(** *** The order of the states *)

Lemma ttable_order event s :
  (state_rank s ≤ state_rank (next (ttable event s)))%nat.
Proof. destruct event, s; simpl; lia. Qed.

(** A cycle never moves the state backwards (Init, then Road, then Done),
    and [prev] holds the state in which the cycle began. *)
Theorem control_state_order nav f o f' :
  control nav f = Ok (o, f') →
  (state_rank (state f) ≤ state_rank (state f'))%nat ∧ prev f' = state f.
Proof.
  intros (event & f1 & _ & Hdisp & Hs & _)%control_inv.
  pose proof (dispatch_registers event f1) as (Hs' & Hp' & _).
  rewrite Hdisp in Hs', Hp'. simpl in *. rewrite Hs', Hp', Hs.
  split; [apply ttable_order|done].
Qed.

(** Over any run of cycles there is one order per snapshot and the state
    never moves backwards; a run that starts in Done stays there and
    orders Quit in every cycle. *)
Theorem cycles_state_order navs f os f' :
  cycles navs f = Ok (os, f') →
  length os = length navs ∧
  (state_rank (state f) ≤ state_rank (state f'))%nat ∧
  (state f = CmdrState.Done →
   state f' = CmdrState.Done ∧
   Forall (λ o, behavior o = Behavior.Quit) os).
Proof.
  revert f os. induction navs as [|nav navs IH]; intros f os; simpl.
  - intros [= <- <-]. by repeat split.
  - destruct (control nav f) as [[o f1]|e] eqn:Hctl; simpl; [|done].
    destruct (cycles navs f1) as [[os' f2]|e] eqn:Hrun; simpl; [|done].
    intros [= <- <-].
    destruct (IH _ _ Hrun) as (Hlen & Hrank & Hdone).
    pose proof Hctl as (event & f0 & _ & Hdisp & Hs0 & _)%control_inv.
    pose proof (dispatch_registers event f0) as (Hs1 & _).
    rewrite Hdisp in Hs1. simpl in Hs1. rewrite Hs0 in Hs1.
    pose proof (ttable_order event (state f)) as Hstep. rewrite <- Hs1 in Hstep.
    split; [simpl; by rewrite Hlen|]. split; [lia|].
    intros Hd.
    assert (state f1 = CmdrState.Done) as Hd1
      by (by rewrite Hs1, Hd, ttable_in_Done).
    destruct (Hdone Hd1) as [Hd2 Hquit]. split; [done|].
    constructor; [|done].
    rewrite dispatch_in_Done in Hdisp by (by rewrite Hs0).
    by injection Hdisp as <- _.
Qed.

(** The FSM goes from Init to Road only in a cycle that found no plan; the
    position it then starts from is the last reported waypoint. *)
Theorem road_entered_without_plan nav f o f' :
  state f = CmdrState.Init →
  control nav f = Ok (o, f') →
  state f' = CmdrState.Road →
  route (cmdr f) = [] ∧ current_way f' = last_waypt nav.
Proof.
  intros Hs (event & f1 & Hev & Hdisp & Hs1 & _)%control_inv Hroad.
  pose proof (dispatch_registers event f1) as (Hs' & _ & Hway & _).
  rewrite Hdisp in Hs', Hway. simpl in *. rewrite Hs1, Hs in Hs'.
  assert (event = CmdrEvent.EnterLane) as ->
    by (rewrite Hroad in Hs'; by destruct event).
  pose proof (current_event_EnterLane _ _ Hev) as Hrt.
  split; [done|].
  rewrite current_event_no_plan in Hev by done.
  pose proof (enter_lane_spec (set_navstate nav f)) as (_ & Hcw & _).
  assert (enter_lane (set_navstate nav f) = (CmdrEvent.EnterLane, f1)) as Hen
    by congruence.
  rewrite Hen in Hcw. simpl in Hcw. congruence.
Qed.

(** In Road without a plan nothing asks for one: the event is EnterLane,
    which in Road only prepares a Go order, so a first plan that failed is
    not attempted again. *)
Theorem road_without_plan nav f :
  state f = CmdrState.Road →
  route (cmdr f) = [] →
  ∃ f1 o f',
    current_event (set_navstate nav f) = Ok (CmdrEvent.EnterLane, f1) ∧
    control nav f = Ok (o, f') ∧
    (o, f') = cmdr_prepare_order Behavior.Go
                (set_state CmdrState.Road (set_prev CmdrState.Road f1)) ∧
    state f' = CmdrState.Road ∧
    count_call call_replan_route (calls f') =
      count_call call_replan_route (calls f).
Proof.
  intros Hs Hrt.
  pose proof (current_event_no_plan (set_navstate nav f) Hrt) as Hev.
  pose proof (enter_lane_spec (set_navstate nav f))
    as (He & _ & Hs1 & _ & Hcalls).
  destruct (enter_lane (set_navstate nav f)) as [event f1]. simpl in *.
  subst event.
  assert (dispatch CmdrEvent.EnterLane f1 =
          cmdr_prepare_order Behavior.Go
            (set_state CmdrState.Road (set_prev CmdrState.Road f1))) as Hdisp
    by (unfold dispatch; by rewrite Hs1, Hs).
  exists f1, (fst (dispatch CmdrEvent.EnterLane f1)),
    (snd (dispatch CmdrEvent.EnterLane f1)).
  split; [done|]. split.
  { rewrite (control_intro _ _ _ _ Hev). by destruct (dispatch _ f1). }
  split. { rewrite <- Hdisp. by destruct (dispatch _ f1). }
  rewrite Hdisp, cmdr_prepare_order_spec. simpl. split; [done|].
  rewrite Hcalls, <- app_assoc, !count_call_app.
  case_decide; rewrite ?count_call_single; simpl; lia.
Qed.

(** *** The replan request *)

Lemma current_event_same_request f event f' :
  replan_waypt (navstate f) = old_replan f →
  current_event f = Ok (event, f') →
  event ≠ CmdrEvent.Blocked ∧ event ≠ CmdrEvent.Replan ∧
  old_replan f' = old_replan f.
Proof.
  intros Hsame Hev.
  apply current_event_inv in Hev as [[_ Hen]|[(_ & -> & idx & Htrack)|Hsel]].
  - unfold enter_lane in Hen. rewrite cmdr_next_checkpoint_spec in Hen.
    injection Hen as <- <-. by case_decide.
  - apply track_progress_lookup_failed in Htrack as [(_ & _ & _ & Ho) _].
    by repeat split.
  - destruct Hsel as (_ & g1 & g2 & f1 & Htrack & Hsel).
    apply track_progress_tracked in Htrack as [(_ & _ & Hn1 & Ho1) _].
    pose proof (advance_checkpoints_registers g1 g2 f1) as (_ & _ & Hn2 & Ho2).
    destruct (advance_checkpoints g1 g2 f1) as [finished f2]. simpl in *.
    rewrite Hn1 in Hn2. rewrite Ho1 in Ho2.
    apply select_event_inv in Hsel
      as [(_ & -> & ->)|[(_ & Hne & _)|[(_ & _ & _ & -> & ->)|(_ & _ & _ & -> & ->)]]].
    + by repeat split.
    + by rewrite Hn2, Ho2 in Hne.
    + rewrite cmdr_replan_route_spec. simpl.
      by destruct (fst (replan_route (cmdr f2))).
    + by repeat split.
Qed.

Lemma current_event_request_taken f event f' :
  current_event f = Ok (event, f') →
  event = CmdrEvent.Blocked ∨ event = CmdrEvent.Replan →
  old_replan f' = replan_waypt (navstate f) ∧
  replan_waypt (navstate f) ≠ old_replan f ∧
  replan_waypt (navstate f) ≠ ElementID_null ∧
  road_blocked (navstate f) = bool_decide (event = CmdrEvent.Blocked).
Proof.
  intros Hev Hevent.
  apply current_event_inv in Hev as [[_ Hen]|[(_ & -> & _)|Hsel]].
  - injection Hen as <- _. by destruct Hevent.
  - by destruct Hevent.
  - destruct Hsel as (_ & g1 & g2 & f1 & Htrack & Hsel).
    apply track_progress_tracked in Htrack as [(_ & _ & Hn1 & Ho1) _].
    pose proof (advance_checkpoints_registers g1 g2 f1) as (_ & _ & Hn2 & Ho2).
    destruct (advance_checkpoints g1 g2 f1) as [finished f2]. simpl in *.
    rewrite Hn1 in Hn2. rewrite Ho1 in Ho2.
    apply select_event_inv in Hsel
      as [(_ & -> & _)|[(_ & Hne & -> & ->)|[(_ & _ & _ & _ & ->)|(_ & _ & _ & _ & ->)]]].
    + by destruct Hevent.
    + rewrite Hn2, Ho2 in *. simpl.
      destruct (decide (replan_waypt (navstate f) ≠ ElementID_null));
        [|by destruct Hevent].
      by destruct (road_blocked (navstate f)).
    + destruct (fst (replan_route (cmdr f2))); by destruct Hevent.
    + by destruct Hevent.
Qed.

(** A request is served once: after a cycle whose event was Blocked or
    Replan, [old_replan] holds the requested waypoint, and a further cycle
    on the same snapshot gives neither event. *)
Theorem request_served_once nav f event f1 o f2 :
  current_event (set_navstate nav f) = Ok (event, f1) →
  event = CmdrEvent.Blocked ∨ event = CmdrEvent.Replan →
  control nav f = Ok (o, f2) →
  old_replan f2 = replan_waypt nav ∧
  ∀ event' f3,
    current_event (set_navstate nav f2) = Ok (event', f3) →
    event' ≠ CmdrEvent.Blocked ∧ event' ≠ CmdrEvent.Replan.
Proof.
  intros Hev Hevent Hctl.
  pose proof (current_event_request_taken _ _ _ Hev Hevent) as (Hold & _).
  rewrite (control_intro _ _ _ _ Hev) in Hctl. injection Hctl as Hdisp.
  pose proof (dispatch_registers event f1) as (_ & _ & _ & Hold2 & _).
  rewrite Hdisp in Hold2. simpl in *.
  assert (old_replan f2 = replan_waypt nav) as Hserved by congruence.
  split; [done|]. intros event' f3 Hev'.
  by apply current_event_same_request in Hev' as (? & ? & _).
Qed.

Lemma dispatch_Done f :
  dispatch CmdrEvent.Done f =
  ({| behavior := Behavior.Quit |},
   set_state CmdrState.Done (set_prev (state f) f)).
Proof. unfold dispatch. by destruct (state f). Qed.

(** The end of the mission comes first: when ticking off a checkpoint
    leaves none, the event is Done whatever the replan request says; the
    cycle ends in Done with a Quit order, [old_replan] is not touched and
    no plan is asked for. *)
Theorem finished_has_priority nav f new_goal1 new_goal2 f1 f2 :
  route (cmdr f) ≠ [] →
  track_progress (set_navstate nav f) = Ok (tracked new_goal1 new_goal2 f1) →
  advance_checkpoints new_goal1 new_goal2 f1 = (true, f2) →
  current_event (set_navstate nav f) = Ok (CmdrEvent.Done, f2) ∧
  ∃ f3,
    control nav f = Ok ({| behavior := Behavior.Quit |}, f3) ∧
    state f3 = CmdrState.Done ∧
    old_replan f3 = old_replan f ∧
    count_call call_replan_route (calls f3) =
      count_call call_replan_route (calls f).
Proof.
  intros Hrt Htrack Hadv.
  pose proof (current_event_tracked (set_navstate nav f) _ _ _ Hrt Htrack)
    as Hev.
  rewrite Hadv in Hev. simpl in Hev.
  apply track_progress_tracked in Htrack as [(_ & _ & _ & Ho1) Hc1].
  pose proof (advance_checkpoints_registers new_goal1 new_goal2 f1)
    as (_ & _ & _ & Ho2).
  pose proof (advance_checkpoints_no_replan new_goal1 new_goal2 f1) as Hc2.
  rewrite Hadv in Ho2, Hc2. simpl in *.
  split; [done|]. eexists. split.
  { rewrite (control_intro _ _ _ _ Hev). by rewrite dispatch_Done. }
  simpl. split; [done|]. split; congruence.
Qed.

(** *** Replanning at a checkpoint *)

(** Wait is the event only when a checkpoint was just ticked off without
    ending the mission, the replan request has not changed, and the plan
    asked for could not be made. *)
Theorem wait_means_replan_failed f f' :
  current_event f = Ok (CmdrEvent.Wait, f') →
  ∃ new_goal2 f1 f2,
    track_progress f = Ok (tracked true new_goal2 f1) ∧
    advance_checkpoints true new_goal2 f1 = (false, f2) ∧
    replan_waypt (navstate f) = old_replan f ∧
    fst (replan_route (cmdr f2)) = false ∧
    f' = snd (cmdr_replan_route f2).
Proof.
  intros Hev.
  apply current_event_inv in Hev as [[_ [=]]|[(_ & [=] & _)|Hsel]].
  destruct Hsel as (_ & g1 & g2 & f1 & Htrack & Hsel).
  pose proof (track_progress_tracked _ _ _ _ Htrack)
    as [(_ & _ & Hn1 & Ho1) _].
  pose proof (advance_checkpoints_registers g1 g2 f1) as (_ & _ & Hn2 & Ho2).
  destruct (advance_checkpoints g1 g2 f1) as [finished f2] eqn:Hadv.
  simpl in *. rewrite Hn1 in Hn2. rewrite Ho1 in Ho2.
  apply select_event_inv in Hsel
    as [(_ & [=] & _)|[(_ & _ & _ & H)|[(-> & Hsame & -> & -> & H)|(_ & _ & _ & _ & [=])]]].
  - repeat case_match; discriminate H.
  - exists g2, f1, f2. rewrite Hn2, Ho2 in Hsame.
    destruct (fst (replan_route (cmdr f2))) eqn:Hok; [discriminate H|].
    by repeat split.
Qed.

(** In Road, a checkpoint ticked off with the request unchanged asks for
    one new plan, in [current_event]; the event is None if the plan was
    made and Wait if not, and either way the action only prepares a Go
    order on the Commander as the planner left it. *)
Theorem checkpoint_asks_for_one_plan nav f new_goal2 f1 f2 :
  state f = CmdrState.Road →
  route (cmdr f) ≠ [] →
  track_progress (set_navstate nav f) = Ok (tracked true new_goal2 f1) →
  advance_checkpoints true new_goal2 f1 = (false, f2) →
  replan_waypt nav = old_replan f →
  ∃ o f',
    current_event (set_navstate nav f) =
      Ok (if fst (replan_route (cmdr f2)) then CmdrEvent.None
          else CmdrEvent.Wait, snd (cmdr_replan_route f2)) ∧
    control nav f = Ok (o, f') ∧
    state f' = CmdrState.Road ∧
    o = fst (prepare_order Behavior.Go (snd (replan_route (cmdr f2)))) ∧
    cmdr f' = snd (prepare_order Behavior.Go (snd (replan_route (cmdr f2)))) ∧
    calls f' = calls f2 ++ [call_replan_route; call_prepare_order Behavior.Go].
Proof.
  intros Hs Hrt Htrack Hadv Hsame.
  pose proof (current_event_tracked (set_navstate nav f) _ _ _ Hrt Htrack)
    as Hev.
  rewrite Hadv in Hev. simpl in Hev.
  apply track_progress_tracked in Htrack as [(Hs1 & _ & Hn1 & Ho1) _].
  pose proof (advance_checkpoints_registers true new_goal2 f1)
    as (Hs2 & _ & Hn2 & Ho2).
  rewrite Hadv in Hs2, Hn2, Ho2. simpl in *.
  unfold select_event in Hev. rewrite Hn2, Hn1, Ho2, Ho1 in Hev.
  rewrite decide_False in Hev by (by intros []).
  rewrite cmdr_replan_route_spec in Hev. simpl in Hev.
  set (f3 := log_call call_replan_route
               (set_cmdr (snd (replan_route (cmdr f2))) f2)) in *.
  assert (∀ event, event = CmdrEvent.None ∨ event = CmdrEvent.Wait →
            dispatch event f3 =
            cmdr_prepare_order Behavior.Go
              (set_state CmdrState.Road (set_prev CmdrState.Road f3)))
    as Hdisp.
  { intros event Hevent. unfold dispatch. subst f3. simpl.
    rewrite Hs2, Hs1, Hs. by destruct Hevent as [-> | ->]. }
  rewrite cmdr_replan_route_spec. simpl. fold f3.
  destruct (fst (replan_route (cmdr f2))); simpl in Hev.
  - eexists _, _. split; [done|]. split.
    { rewrite (control_intro _ _ _ _ Hev), Hdisp by (by left).
      rewrite cmdr_prepare_order_spec. reflexivity. }
    subst f3. simpl. rewrite <- app_assoc. by repeat split.
  - eexists _, _. split; [done|]. split.
    { rewrite (control_intro _ _ _ _ Hev), Hdisp by (by right).
      rewrite cmdr_prepare_order_spec. reflexivity. }
    subst f3. simpl. rewrite <- app_assoc. by repeat split.
Qed.

(** In Road, a new replan request for a waypoint is handled in the action:
    with the road blocked the waypoint is first added to the blockages,
    otherwise the FSM's copy of the last waypoint is set to it; the planner
    is then asked once, and the order is the Go order prepared on the
    Commander as the planner left it, whether or not a plan was made. *)
Theorem request_handling nav f new_goal1 new_goal2 f1 f2 :
  state f = CmdrState.Road →
  route (cmdr f) ≠ [] →
  track_progress (set_navstate nav f) = Ok (tracked new_goal1 new_goal2 f1) →
  advance_checkpoints new_goal1 new_goal2 f1 = (false, f2) →
  replan_waypt nav ≠ old_replan f →
  replan_waypt nav ≠ ElementID_null →
  let c := if road_blocked nav
           then add_block (replan_waypt nav) (cmdr f2) else cmdr f2 in
  ∃ o f',
    control nav f = Ok (o, f') ∧
    state f' = CmdrState.Road ∧
    o = fst (prepare_order Behavior.Go (snd (replan_route c))) ∧
    cmdr f' = snd (prepare_order Behavior.Go (snd (replan_route c))) ∧
    last_waypt (navstate f') =
      (if road_blocked nav then last_waypt nav else replan_waypt nav) ∧
    calls f' = calls f2 ++ [call_replan_route; call_prepare_order Behavior.Go].
Proof.
  intros Hs Hrt Htrack Hadv Hnew Hnull c.
  pose proof (current_event_tracked (set_navstate nav f) _ _ _ Hrt Htrack)
    as Hev.
  rewrite Hadv in Hev. simpl in Hev.
  apply track_progress_tracked in Htrack as [(Hs1 & _ & Hn1 & Ho1) _].
  pose proof (advance_checkpoints_registers new_goal1 new_goal2 f1)
    as (Hs2 & _ & Hn2 & Ho2).
  rewrite Hadv in Hs2, Hn2, Ho2. simpl in *.
  unfold select_event in Hev. rewrite Hn2, Hn1, Ho2, Ho1 in Hev.
  rewrite decide_True in Hev by done. simpl in Hev.
  rewrite decide_True in Hev by done.
  subst c.
  destruct (road_blocked nav); rewrite (control_intro _ _ _ _ Hev);
    unfold dispatch; simpl; rewrite Hs2, Hs1, Hs; simpl;
    unfold BlockedInRoad, ReplanInRoad, ActionWait, ActionInRoad; simpl;
    rewrite Hn2, Hn1, cmdr_replan_route_spec; simpl;
    case_bool_decide; rewrite cmdr_prepare_order_spec; simpl;
    eexists _, _; (split; [reflexivity|]); simpl;
    rewrite <- app_assoc, ?Hn2, ?Hn1; by repeat split.
Qed.

(** *** Where the walk stops *)

Lemma walk_loop_stops g goal_id goal2_id last rt way g1 g2 rt' edge way' g1' g2' :
  walk_loop g goal_id goal2_id last rt way g1 g2 =
    walk_exit rt' edge way' g1' g2' →
  (∃ popped, popped ≠ [] ∧ rt = popped ++ rt') ∧
  (∃ rest, rt' = edge :: rest) ∧
  (∃ n, get_node_by_index g (startnode_index edge) = Some n ∧ way' = id n) ∧
  (way' = last ∨ rt' = [edge]).
Proof.
  revert way g1 g2.
  induction rt as [|e0 rt IH]; intros way g1 g2; [done|].
  destruct rt as [|first_edge rt1]; [done|].
  cbn [walk_loop].
  destruct (get_node_by_index g (startnode_index first_edge)) as [n|] eqn:Hlook;
    [|done].
  destruct (bool_decide (last ≠ _) && bool_decide _) eqn:Hgo.
  - intros H. apply IH in H as ((popped & _ & Hpop) & Hrest & Hnode & Hstop).
    split; [|done]. exists (e0 :: popped). split; [done|].
    by rewrite Hpop.
  - intros [= <- <- <- <- <-].
    split; [by exists [e0]|]. split; [by exists rt1|].
    split; [by exists n|].
    apply andb_false_iff in Hgo as [Hgo|Hgo].
    + left. apply bool_decide_eq_false in Hgo. by apply dec_stable in Hgo.
    + right. apply bool_decide_eq_false in Hgo.
      destruct rt1; [done|]. simpl in Hgo. lia.
Qed.

(** After a walk that ends without a failed lookup, the route is what
    remains of the old one, with at least one edge if there was one, and
    nothing else of the Commander has changed; [current_way] is the
    reported waypoint, or else the route is down to one edge and
    [current_way] is the end node of that edge. *)
Theorem tracked_position f new_goal1 new_goal2 f' :
  track_progress f = Ok (tracked new_goal1 new_goal2 f') →
  cmdr f' = set_route (route (cmdr f')) (cmdr f) ∧
  route (cmdr f') `suffix_of` route (cmdr f) ∧
  (route (cmdr f) ≠ [] → route (cmdr f') ≠ []) ∧
  (current_way f' = last_waypt (navstate f) ∨
   ∃ edge n,
     route (cmdr f') = [edge] ∧
     get_node_by_index (graph (cmdr f)) (endnode_index edge) = Some n ∧
     current_way f' = id n).
Proof.
  unfold track_progress. case_decide as Hne.
  - destruct (walk_loop _ _ _ _ _ _ _ _) as [rt edge way g1 g2|i rt way|e]
      eqn:Hwalk; [|done..].
    apply walk_loop_stops in Hwalk
      as ((popped & _ & Hpop) & (rest & Hrest) & _ & Hstop).
    case_decide as Hlast.
    + destruct (get_node_by_index _ (endnode_index edge)) as [n|] eqn:Hlook;
        [|done].
      intros [= <- <- <-]. simpl. split; [done|].
      split; [by exists popped|]. split; [by rewrite Hrest|].
      right. exists edge, n. destruct Hstop as [->|Hone]; [done|].
      by repeat split.
    + try apply dec_stable in Hlast.
      intros [= <- <- <-]. simpl. split; [done|].
      split; [by exists popped|]. split; [by rewrite Hrest|]. by left.
  - try apply dec_stable in Hne. intros [= <- <- <-].
    split; [by destruct (cmdr f)|]. split; [done|]. split; [done|]. by left.
Qed.



(** *** Orders and calls *)

(** With a [prepare_order] that gives the behaviour it is asked for, the
    order of a cycle tells the state the cycle ends in: Quit comes with
    Done, Initialize with Init and Go with Road; Abort comes with Done,
    except in the cycle that leaves Init, where it comes with Road. *)
Theorem order_tells_state nav f o f' :
  (∀ b c, behavior (fst (prepare_order b c)) = b) →
  control nav f = Ok (o, f') →
  match behavior o with
  | Behavior.Quit => state f' = CmdrState.Done
  | Behavior.Initialize => state f' = CmdrState.Init
  | Behavior.Go => state f' = CmdrState.Road
  | Behavior.Abort =>
      state f' = CmdrState.Done ∨
      (state f = CmdrState.Init ∧ state f' = CmdrState.Road)
  end.
Proof.
  intros Hgo (event & f1 & _ & Hdisp & Hs & _)%control_inv.
  revert Hdisp. unfold dispatch. rewrite Hs.
  destruct event, (state f); simpl;
    unfold BlockedInRoad, ReplanInRoad, InitToRoad, ActionToDone, ActionWait,
      ActionInRoad, ActionInDone, ActionInInit, ActionFail;
    rewrite ?cmdr_replan_route_spec; repeat case_bool_decide;
    rewrite ?cmdr_prepare_order_spec; intros [= <- <-]; simpl;
    rewrite ?Hgo; auto.
Qed.

Lemma current_event_budget f event f' :
  current_event f = Ok (event, f') →
  (count_call call_next_checkpoint (calls f') ≤
     count_call call_next_checkpoint (calls f) + 2)%nat ∧
  count_call (call_prepare_order Behavior.Go) (calls f') =
    count_call (call_prepare_order Behavior.Go) (calls f) ∧
  (count_call call_replan_route (calls f') =
     count_call call_replan_route (calls f) ∨
   (count_call call_replan_route (calls f') =
      S (count_call call_replan_route (calls f)) ∧
    (event = CmdrEvent.None ∨ event = CmdrEvent.Wait))).
Proof.
  intros Hev.
  apply current_event_inv in Hev as [[_ Hen]|[(_ & -> & idx & Htrack)|Hsel]].
  - pose proof (enter_lane_spec f) as (_ & _ & _ & _ & Hcalls).
    rewrite Hen in Hcalls. simpl in Hcalls. rewrite Hcalls, !count_call_app.
    case_decide; rewrite ?count_call_single, ?count_call_nil; simpl;
      (split; [lia|]); (split; [lia|]); left; lia.
  - apply track_progress_lookup_failed in Htrack as [_ ->].
    split; [lia|]. split; [done|]. by left.
  - destruct Hsel as (_ & g1 & g2 & f1 & Htrack & Hsel).
    apply track_progress_tracked in Htrack as [_ Hc1].
    pose proof (advance_checkpoints_count g1 g2 f1) as Hnext.
    pose proof (advance_checkpoints_no_replan g1 g2 f1) as Hreplan.
    assert (count_call (call_prepare_order Behavior.Go)
              (calls (snd (advance_checkpoints g1 g2 f1))) =
            count_call (call_prepare_order Behavior.Go) (calls f1)) as Hprep.
    { unfold advance_checkpoints. rewrite !cmdr_next_checkpoint_spec.
      destruct g1, g2; simpl; rewrite ?cmdr_next_checkpoint_spec; simpl;
        rewrite ?count_call_snoc; simpl; lia. }
    destruct (advance_checkpoints g1 g2 f1) as [finished f2]. simpl in *.
    rewrite Hc1 in *.
    assert (count_call call_next_checkpoint (calls f2) ≤
            count_call call_next_checkpoint (calls f) + 2)%nat as Hle
      by (rewrite Hnext; destruct g1, g2; lia).
    apply select_event_inv in Hsel
      as [(_ & _ & ->)|[(_ & _ & -> & _)|[(_ & _ & _ & -> & Hevent)|(_ & _ & _ & -> & _)]]];
      simpl; try (split; [done|]; split; [done|]; by left).
    rewrite cmdr_replan_route_spec. simpl. rewrite !count_call_snoc. simpl.
    split; [lia|]. split; [lia|]. right. split; [lia|].
    destruct (fst (replan_route (cmdr f2))); auto.
Qed.

Lemma dispatch_budget event f :
  let f' := snd (dispatch event f) in
  (count_call (call_prepare_order Behavior.Go) (calls f') ≤
     S (count_call (call_prepare_order Behavior.Go) (calls f)))%nat ∧
  (count_call call_replan_route (calls f') ≤
     S (count_call call_replan_route (calls f)))%nat ∧
  (event = CmdrEvent.None ∨ event = CmdrEvent.Wait →
   count_call call_replan_route (calls f') =
     count_call call_replan_route (calls f)).
Proof.
  unfold dispatch.
  destruct event, (state f); simpl;
    unfold BlockedInRoad, ReplanInRoad, InitToRoad, ActionToDone, ActionWait,
      ActionInRoad, ActionInDone, ActionInInit, ActionFail;
    rewrite ?cmdr_replan_route_spec; repeat case_bool_decide;
    rewrite ?cmdr_prepare_order_spec; simpl;
    rewrite ?count_call_snoc; simpl;
    (split; [lia|]); (split; [lia|]); intros [? | ?]; (discriminate || lia).
Qed.

(** What one cycle asks of the Commander at most: two checkpoint advances,
    one new plan and one Go order. *)
Theorem cycle_call_budget nav f o f' :
  control nav f = Ok (o, f') →
  (count_call call_next_checkpoint (calls f') ≤
     count_call call_next_checkpoint (calls f) + 2)%nat ∧
  (count_call call_replan_route (calls f') ≤
     count_call call_replan_route (calls f) + 1)%nat ∧
  (count_call (call_prepare_order Behavior.Go) (calls f') ≤
     count_call (call_prepare_order Behavior.Go) (calls f) + 1)%nat.
Proof.
  intros (event & f1 & Hev & Hdisp & _)%control_inv.
  apply current_event_budget in Hev as (Hnext & Hprep & Hreplan).
  pose proof (dispatch_registers event f1) as (_ & _ & _ & _ & Hnext').
  pose proof (dispatch_budget event f1) as (Hprep' & Hreplan' & Hnone).
  rewrite Hdisp in Hnext', Hprep', Hreplan', Hnone. simpl in *.
  split; [lia|]. split; [|lia].
  destruct Hreplan as [Hsame|[Hone Hevent]]; [lia|].
  rewrite (Hnone Hevent). lia.
Qed.
End Cycle.

(** * Properties of the map lanes driver *)

(** The three constants are the floats they are said to be: each has a
    mantissa of the width of its format and lies within less than half a
    unit in the last place of the number it rounds. *)
Lemma float_literals_nearest :
  ((MapLanesDriver.float64_0_1 == 7205759403792794 # 72057594037927936)%Q ∧
   2 ^ 52 ≤ 7205759403792794 < 2 ^ 53 ∧
   72057594037927936 = 2 ^ 56 ∧
   (Qabs (MapLanesDriver.float64_0_1 - (1 # 10))
    < 1 # 144115188075855872)%Q ∧
   144115188075855872 = 2 ^ 57) ∧
  ((MapLanesDriver.float64_0_8 == 7205759403792794 # 9007199254740992)%Q ∧
   9007199254740992 = 2 ^ 53 ∧
   (Qabs (MapLanesDriver.float64_0_8 - (8 # 10))
    < 1 # 18014398509481984)%Q ∧
   18014398509481984 = 2 ^ 54) ∧
  ((MapLanesDriver.float32_0_8 == 13421773 # 16777216)%Q ∧
   2 ^ 23 ≤ 13421773 < 2 ^ 24 ∧
   16777216 = 2 ^ 24 ∧
   (Qabs (MapLanesDriver.float32_0_8 - MapLanesDriver.float64_0_8)
    < 1 # 33554432)%Q ∧
   33554432 = 2 ^ 25).
Proof. repeat split; vm_compute; reflexivity || discriminate. Qed.

Lemma to_int32_inj i j :
  0 ≤ i < 2 ^ 32 → 0 ≤ j < 2 ^ 32 →
  MapLanesDriver.to_int32 i = MapLanesDriver.to_int32 j → i = j.
Proof.
  unfold MapLanesDriver.to_int32.
  change (2 ^ 32) with 4294967296. change (2 ^ 31) with 2147483648.
  intros Hi Hj. Z.div_mod_to_equations. lia.
Qed.

Lemma uint32_succ_small i :
  0 ≤ i → i + 1 < 2 ^ 32 → MapLanesDriver.uint32_succ i = i + 1.
Proof.
  intros Hi Hlt. unfold MapLanesDriver.uint32_succ.
  apply Z.mod_small. lia.
Qed.

Section MapMarks.
Import MapLanesDriver.
Context {M : Messages} {R : RoadMap M}.

Implicit Types (p : ArtQuadrilateral) (ps : list ArtQuadrilateral).
Implicit Types (markers : list Marker) (d : driver).

(** The markers of one polygon, as the loop adds them. *)
Lemma mark_polygon_app now frame name life i p markers :
  mark_polygon now frame name life i p markers =
  markers ++ mark_polygon now frame name life i p [].
Proof.
  unfold mark_polygon.
  destruct (is_transition p), (contains_way p); simpl;
    by rewrite <- ?app_assoc.
Qed.

Lemma mark_polygons_app now frame name life i ps markers :
  mark_polygons now frame name life i ps markers =
  markers ++ mark_polygons now frame name life i ps [].
Proof.
  revert i markers. induction ps as [|p ps IH]; intros i markers; simpl.
  - by rewrite app_nil_r.
  - rewrite IH, (IH _ (mark_polygon _ _ _ _ _ _ [])).
    by rewrite mark_polygon_app, app_assoc.
Qed.

Lemma mark_polygons_cons now frame name life i p ps :
  mark_polygons now frame name life i (p :: ps) [] =
  mark_polygon now frame name life i p [] ++
  mark_polygons now frame name life (uint32_succ i) ps [].
Proof. simpl. by rewrite mark_polygons_app. Qed.

Lemma mark_polygons_length now frame name life i ps :
  length (mark_polygons now frame name life i ps []) =
  (length ps + length (filter (λ p, is_transition p = false) ps) +
   length (filter (λ p, contains_way p = true) ps))%nat.
Proof.
  revert i. induction ps as [|p ps IH]; intros i; [done|].
  rewrite mark_polygons_cons, length_app, IH, !filter_cons.
  unfold mark_polygon.
  destruct (is_transition p), (contains_way p); simpl;
    repeat case_decide; simplify_eq; simpl; lia.
Qed.

Lemma mark_polygon_ids now frame name life i p m :
  m ∈ mark_polygon now frame name life i p [] → id m = to_int32 i.
Proof.
  unfold mark_polygon.
  destruct (is_transition p), (contains_way p); simpl;
    rewrite ?elem_of_cons, elem_of_nil; intros H;
    repeat destruct H as [->|H]; done.
Qed.

Lemma mark_polygon_keys now frame name life i p :
  NoDup (map (λ m, (ns m, id m)) (mark_polygon now frame name life i p [])).
Proof.
  unfold mark_polygon.
  destruct (is_transition p), (contains_way p); simpl;
    repeat (apply NoDup_cons; split;
            [rewrite ?elem_of_cons, elem_of_nil; intros H;
             repeat destruct H as [[=]|H]; done|]);
    apply NoDup_nil_2.
Qed.

Lemma mark_polygons_ids now frame name life i ps m :
  0 ≤ i → i + Z.of_nat (length ps) ≤ 2 ^ 32 →
  m ∈ mark_polygons now frame name life i ps [] →
  ∃ j, i ≤ j < i + Z.of_nat (length ps) ∧ id m = to_int32 j.
Proof.
  revert i. induction ps as [|p ps IH]; intros i Hi Hlen.
  - by intros ?%elem_of_nil.
  - rewrite mark_polygons_cons, elem_of_app. simpl length in *.
    intros [Hm|Hm].
    + apply mark_polygon_ids in Hm. exists i. split; [lia|done].
    + destruct ps as [|p' ps]; [by apply elem_of_nil in Hm|].
      simpl length in *. rewrite uint32_succ_small in Hm by lia.
      apply IH in Hm as (j & Hj & Hid); [|simpl length; lia..].
      exists j. simpl length in Hj. split; [lia|done].
Qed.

(** With subscribers, [publishMapMarks] sends one array and keeps it in
    [marks_msg_]; the array does not depend on what [marks_msg_] held, and
    it has one marker per polygon, one more per polygon that is not a
    transition and one more per polygon that contains a way-point. *)
Theorem markers_published subscribers now name life lanes d :
  subscribers ≠ 0 →
  Z.of_nat (length (polygons lanes)) < 2 ^ 32 →
  ∃ markers,
    publishMapMarks subscribers now name life lanes d =
      ([visualization_marker_array markers], set_marks_msg markers d) ∧
    publishMapMarks subscribers now name life lanes (set_marks_msg [] d) =
      ([visualization_marker_array markers], set_marks_msg markers d) ∧
    length markers =
      (length (polygons lanes) +
       length (filter (λ p, is_transition p = false) (polygons lanes)) +
       length (filter (λ p, contains_way p = true) (polygons lanes)))%nat.
Proof.
  intros Hsub _. unfold publishMapMarks.
  rewrite bool_decide_eq_false_2 by done.
  eexists. split; [reflexivity|]. split; [reflexivity|].
  apply mark_polygons_length.
Qed.

(** The markers of one array are told apart by namespace and id: no two
    of them have both in common. *)
Theorem marker_keys_unique subscribers now name life lanes d markers d' :
  Z.of_nat (length (polygons lanes)) < 2 ^ 32 →
  publishMapMarks subscribers now name life lanes d =
    ([visualization_marker_array markers], d') →
  NoDup (map (λ m, (ns m, id m)) markers).
Proof.
  intros Hlen. unfold publishMapMarks. case_bool_decide; [done|].
  intros [= <- _].
  assert (∀ i ps, 0 ≤ i → i + Z.of_nat (length ps) ≤ 2 ^ 32 →
            NoDup (map (λ m, (ns m, id m))
                     (mark_polygons now (frame_id_ d) name life i ps [])))
    as Hgen; [|apply Hgen; lia].
  intros i ps. revert i. induction ps as [|p ps IH]; intros i Hi Hps.
  - apply NoDup_nil_2.
  - rewrite mark_polygons_cons, map_app. simpl length in Hps.
    apply NoDup_app. split; [apply mark_polygon_keys|].
    destruct ps as [|p' ps].
    { split; [by intros key _ ?%elem_of_nil|apply NoDup_nil_2]. }
    simpl length in Hps. rewrite uint32_succ_small by lia.
    split; [|apply IH; simpl length; lia].
    intros key (m & -> & Hm)%list_elem_of_fmap (m' & Hkey & Hm')%list_elem_of_fmap.
    apply mark_polygon_ids in Hm.
    apply mark_polygons_ids in Hm' as (j & Hj & Hid); [|simpl length; lia..].
    simpl length in Hj.
    injection Hkey as _ Hkey. rewrite Hm, Hid in Hkey.
    apply to_int32_inj in Hkey; lia.
Qed.

Lemma mark_polygon_by_type now frame name life i p :
  let ms := mark_polygon now frame name life i p [] in
  map position (filter (λ m, type m = ARROW) ms) = [midpoint p] ∧
  map points (filter (λ m, type m = LINE_LIST) ms) =
    (if is_transition p then []
     else [map Point_of_Point32 (poly_points p)]) ∧
  map (λ m, (position m, color m)) (filter (λ m, type m = CYLINDER) ms) =
    (if contains_way p then
       [(midpoint p,
         if is_stop p then {| r := 1; g := 0; b := 0; a := float32_0_8 |}
         else {| r := 1; g := 1; b := 0; a := float32_0_8 |})]
     else []).
Proof.
  unfold mark_polygon.
  by destruct (is_transition p), (contains_way p).
Qed.

Lemma mark_polygons_by_type now frame name life i ps :
  let ms := mark_polygons now frame name life i ps [] in
  map position (filter (λ m, type m = ARROW) ms) = map midpoint ps ∧
  map points (filter (λ m, type m = LINE_LIST) ms) =
    map (λ p, map Point_of_Point32 (poly_points p))
      (filter (λ p, is_transition p = false) ps) ∧
  map (λ m, (position m, color m)) (filter (λ m, type m = CYLINDER) ms) =
    map (λ p, (midpoint p,
               if is_stop p then {| r := 1; g := 0; b := 0; a := float32_0_8 |}
               else {| r := 1; g := 1; b := 0; a := float32_0_8 |}))
      (filter (λ p, contains_way p = true) ps).
Proof.
  revert i. induction ps as [|p ps IH]; intros i; [done|].
  rewrite mark_polygons_cons. cbv zeta.
  rewrite !filter_app, !map_app, !filter_cons.
  destruct (IH (uint32_succ i)) as (-> & -> & ->).
  destruct (mark_polygon_by_type now frame name life i p) as (-> & -> & ->).
  destruct (is_transition p), (contains_way p); simpl;
    repeat case_decide; simplify_eq; done.
Qed.

Lemma mark_polygons_headers now frame name life i ps markers :
  Forall (λ m, stamp m = now ∧ frame_id m = frame ∧ lifetime m = life)
    markers →
  Forall (λ m, stamp m = now ∧ frame_id m = frame ∧ lifetime m = life)
    (mark_polygons now frame name life i ps markers).
Proof.
  revert i markers. induction ps as [|p ps IH]; intros i markers Hacc; [done|].
  simpl. apply IH. unfold mark_polygon.
  destruct (is_transition p), (contains_way p); simpl;
    rewrite ?Forall_app, ?Forall_singleton; by repeat split.
Qed.

(** What the markers show: the arrows are at the midpoints of all the
    polygons, in order; the line lists carry the corner points of the
    polygons that are not transitions; the cylinders stand at the midpoints
    of the polygons that contain a way-point, red for a stop and yellow
    otherwise, with the float nearest to 0.8 for alpha. *)
Theorem markers_by_type subscribers now name life lanes d markers d' :
  Z.of_nat (length (polygons lanes)) < 2 ^ 32 →
  publishMapMarks subscribers now name life lanes d =
    ([visualization_marker_array markers], d') →
  map position (filter (λ m, type m = ARROW) markers) =
    map midpoint (polygons lanes) ∧
  map points (filter (λ m, type m = LINE_LIST) markers) =
    map (λ p, map Point_of_Point32 (poly_points p))
      (filter (λ p, is_transition p = false) (polygons lanes)) ∧
  map (λ m, (position m, color m))
    (filter (λ m, type m = CYLINDER) markers) =
    map (λ p, (midpoint p,
               if is_stop p then {| r := 1; g := 0; b := 0; a := float32_0_8 |}
               else {| r := 1; g := 1; b := 0; a := float32_0_8 |}))
      (filter (λ p, contains_way p = true) (polygons lanes)).
Proof.
  intros _. unfold publishMapMarks. case_bool_decide; [done|].
  intros [= <- _]. apply mark_polygons_by_type.
Qed.

(** *** The local map and the loop *)

(** [publishLocalMap] is decided by the return code of [getLanes]: with a
    code other than zero it sends nothing; with zero it sends the lanes,
    stamped with the time of the last odometry message and the driver's
    frame, alone when the markers have no subscriber and otherwise
    followed by one array of markers, one per polygon and more as in
    [publishMapMarks], each stamped with the present time, in the same
    frame and living for one period. *)
Theorem local_map_publication subscribers now d rc lane_data m :
  getLanes (map_ d) (odom_position (odom_msg_ d)) = (rc, lane_data, m) →
  Z.of_nat (length (polygons lane_data)) < 2 ^ 32 →
  let lanes :=
    {| lanes_stamp := odom_stamp (odom_msg_ d);
       lanes_frame_id := frame_id_ d;
       polygons := polygons lane_data |} in
  (rc ≠ 0 → publishLocalMap subscribers now d = ([], set_map m d)) ∧
  (rc = 0 → subscribers = 0 →
   publishLocalMap subscribers now d = ([roadmap_local lanes], set_map m d)) ∧
  (rc = 0 → subscribers ≠ 0 →
   ∃ markers,
     publishLocalMap subscribers now d =
       ([roadmap_local lanes; visualization_marker_array markers],
        set_marks_msg markers (set_map m d)) ∧
     length markers =
       (length (polygons lane_data) +
        length (filter (λ p, is_transition p = false) (polygons lane_data)) +
        length (filter (λ p, contains_way p = true) (polygons lane_data)))%nat ∧
     Forall (λ mk, stamp mk = now ∧ frame_id mk = frame_id_ d ∧
                   lifetime mk = MAPLANES_period) markers).
Proof.
  intros Hget _ lanes. unfold publishLocalMap. rewrite Hget.
  split; [|split].
  - intros Hrc. rewrite bool_decide_eq_true_2 by (by intros <-). done.
  - intros -> ->. by rewrite bool_decide_eq_false_2 by (by intros []).
  - intros -> Hsub. rewrite bool_decide_eq_false_2 by (by intros []).
    unfold publishMapMarks. rewrite bool_decide_eq_false_2 by done.
    eexists. split; [reflexivity|]. split.
    + apply mark_polygons_length.
    + apply mark_polygons_headers. constructor.
Qed.

Lemma processOdom_last ods o d :
  let d' := foldl (λ d odomIn, processOdom odomIn d) d (ods ++ [o]) in
  odom_msg_ d' = o ∧ initial_position_ d' = true ∧
  map_ d' = map_ d ∧ frame_id_ d' = frame_id_ d.
Proof.
  cbv zeta. rewrite foldl_app. simpl.
  set (d1 := foldl _ d ods).
  assert (map_ d1 = map_ d ∧ frame_id_ d1 = frame_id_ d) as [-> ->].
  { subst d1. revert d. induction ods as [|o' ods IH]; intros d; [done|].
    simpl. by destruct (IH (processOdom o' d)) as [-> ->]. }
  repeat split. by destruct (initial_position_ d1).
Qed.

(** A turn of the loop in which odometry arrives reports the lanes around
    the position of the last message, under the time of that message. *)
Theorem local_map_follows_odometry t d ods o lanes :
  incoming t = ods ++ [o] →
  roadmap_local lanes ∈ (spin_once t d).1 →
  lanes_stamp lanes = odom_stamp o ∧
  lanes_frame_id lanes = frame_id_ d ∧
  polygons lanes = polygons (getLanes (map_ d) (odom_position o)).1.2.
Proof.
  intros Hin. unfold spin_once. rewrite Hin.
  destruct (processOdom_last ods o d) as (Ho & -> & Hm & Hf).
  unfold publishLocalMap. rewrite Ho, Hm.
  destruct (getLanes _ _) as [[rc lane_data] m]. simpl.
  case_bool_decide; [by intros ?%elem_of_nil|].
  unfold publishMapMarks. case_bool_decide; simpl;
    rewrite ?elem_of_cons, elem_of_nil; intros Hel;
    repeat destruct Hel as [[= ->]|Hel]; try done;
    simpl; by rewrite ?Ho, ?Hf.
Qed.

Lemma spin_loop_idle turns d :
  initial_position_ d = false →
  Forall (λ t, incoming t = []) turns →
  spin_loop turns d = ([], d).
Proof.
  intros Hpos Hidle. induction Hidle as [|t turns Ht _ IH]; [done|].
  simpl. unfold spin_once. rewrite Ht. simpl. by rewrite Hpos, IH.
Qed.

(** Until the first odometry message arrives the loop of [Spin] sends
    nothing: all that [Spin] has sent by then is the global map, once, and
    only if the road map has polygons. *)
Theorem no_local_map_before_odometry start turns d :
  initial_position_ d = false →
  Forall (λ t, incoming t = []) turns →
  let '(n, lanes, m) := getAllLanes (map_ d) in
  Spin start turns d =
  (if bool_decide (0 = n) then []
   else [roadmap_global {| lanes_stamp := start;
                           lanes_frame_id := frame_id_ d;
                           polygons := polygons lanes |}],
   set_map m d).
Proof.
  intros Hpos Hidle. unfold Spin, publishGlobalMap.
  destruct (getAllLanes (map_ d)) as [[n lanes] m].
  case_bool_decide; rewrite spin_loop_idle by done; done.
Qed.

Lemma spin_once_no_global t d :
  Forall (λ msg, ∀ lanes, msg ≠ roadmap_global lanes) (spin_once t d).1.
Proof.
  unfold spin_once. case_match; [|by constructor].
  unfold publishLocalMap. destruct (getLanes _ _) as [[rc lane_data] m].
  case_bool_decide; [by constructor|].
  unfold publishMapMarks. case_bool_decide; simpl; by repeat constructor.
Qed.

Lemma spin_loop_no_global turns d :
  Forall (λ msg, ∀ lanes, msg ≠ roadmap_global lanes) (spin_loop turns d).1.
Proof.
  revert d. induction turns as [|t turns IH]; intros d; simpl.
  - constructor.
  - pose proof (spin_once_no_global t d) as Hone.
    destruct (spin_once t d) as [out d1].
    pose proof (IH d1) as Hrest.
    destruct (spin_loop turns d1) as [outs d2].
    simpl in *. by apply Forall_app.
Qed.

(** The global map is sent at most once, before anything else: whatever
    arrives and however long [Spin] runs, all it sends after the start is
    local maps and markers. *)
Theorem global_map_once start turns d :
  ∃ first rest,
    (Spin start turns d).1 = first ++ rest ∧
    first = (publishGlobalMap start d).1 ∧
    (length first ≤ 1)%nat ∧
    Forall (λ msg, ∀ lanes, msg ≠ roadmap_global lanes) rest.
Proof.
  unfold Spin.
  destruct (publishGlobalMap start d) as [first d1] eqn:Hglobal.
  pose proof (spin_loop_no_global turns d1) as Hrest.
  destruct (spin_loop turns d1) as [rest d2].
  exists first, rest. simpl. split; [done|]. split; [done|]. split; [|done].
  unfold publishGlobalMap in Hglobal.
  destruct (getAllLanes (map_ d)) as [[n lanes] m].
  case_bool_decide; injection Hglobal as <- _; simpl; lia.
Qed.
End MapMarks.

(** * Further runs *)

(** The plan runs over the unknown node 11: the event is Fail, and the
    edge and the index are named. *)
Lemma fail_names_a_missing_node_witness :
  let f := set_navstate (Scenario.nav 101 Scenario.null false)
             (Scenario.fsm CmdrState.Road 100 Scenario.null
                [Scenario.edge 0 1; Scenario.edge 11 12] [105]) in
  ∃ f',
    current_event (api := Scenario.api None) f = Ok (CmdrEvent.Fail, f') ∧
    calls f' = calls f ∧
    ∃ edge idx,
      edge ∈ route (cmdr f) ∧
      (startnode_index edge = idx ∨ endnode_index edge = idx) ∧
      get_node_by_index (graph (cmdr f)) idx = None.
Proof.
  intros f. eexists. split; [reflexivity|].
  apply (fail_names_a_missing_node (api := Scenario.api None) f).
  reflexivity.
Defined.

(** The first cycle of a mission: from Init to Road. *)
Lemma control_state_order_witness :
  let f := Scenario.fsm CmdrState.Init Scenario.null Scenario.null []
             [105; 106] in
  let nav := Scenario.nav 100 Scenario.null false in
  ∃ o f',
    control (api := Scenario.api (Some [Scenario.edge 0 1])) nav f =
      Ok (o, f') ∧
    state f' = CmdrState.Road ∧
    (state_rank (state f) ≤ state_rank (state f'))%nat ∧
    prev f' = state f.
Proof.
  intros f nav. eexists _, _. split; [reflexivity|]. split; [reflexivity|].
  eapply (control_state_order (api := Scenario.api (Some [Scenario.edge 0 1]))
            nav f).
  reflexivity.
Defined.

(** Two cycles of a mission that is over. *)
Lemma cycles_state_order_witness :
  let f := Scenario.fsm CmdrState.Done 100 Scenario.null
             [Scenario.edge 0 1; Scenario.edge 1 2] [105] in
  let navs := [Scenario.nav 101 Scenario.null false;
               Scenario.nav 101 107 true] in
  ∃ os f',
    cycles (api := Scenario.api None) navs f = Ok (os, f') ∧
    length os = 2%nat ∧
    state f' = CmdrState.Done ∧
    Forall (λ o, behavior o = Behavior.Quit) os.
Proof.
  intros f navs. eexists _, _. split; [reflexivity|].
  destruct (cycles_state_order (api := Scenario.api None) navs f _ _ eq_refl)
    as (Hlen & _ & Hdone).
  split; [exact Hlen|]. exact (Hdone eq_refl).
Defined.

Lemma road_entered_without_plan_witness :
  let f := Scenario.fsm CmdrState.Init Scenario.null Scenario.null []
             [105; 106] in
  let nav := Scenario.nav 100 Scenario.null false in
  state f = CmdrState.Init ∧
  ∃ o f',
    control (api := Scenario.api (Some [Scenario.edge 0 1])) nav f =
      Ok (o, f') ∧
    state f' = CmdrState.Road ∧
    route (cmdr f) = [] ∧ current_way f' = 100.
Proof.
  intros f nav. split; [reflexivity|].
  eexists _, _. split; [reflexivity|]. split; [reflexivity|].
  eapply (road_entered_without_plan
            (api := Scenario.api (Some [Scenario.edge 0 1])) nav f);
    reflexivity.
Defined.

(** The cycle after a first plan that failed: a Go order, and no new
    attempt. *)
Lemma road_without_plan_witness :
  let f := Scenario.fsm CmdrState.Road 100 Scenario.null [] [105] in
  let nav := Scenario.nav 100 Scenario.null false in
  state f = CmdrState.Road ∧ route (cmdr f) = [] ∧
  ∃ o f',
    control (api := Scenario.api None) nav f = Ok (o, f') ∧
    behavior o = Behavior.Go ∧
    state f' = CmdrState.Road ∧
    count_call call_replan_route (calls f') = 0%nat.
Proof.
  intros f nav. split; [reflexivity|]. split; [reflexivity|].
  destruct (road_without_plan (api := Scenario.api None) nav f
              eq_refl eq_refl)
    as (f1 & o & f' & _ & Hctl & Hgo & Hs & Hcount).
  exists o, f'. split; [exact Hctl|].
  split; [by injection Hgo as -> _|]. split; [exact Hs|exact Hcount].
Defined.

(** A blocked road at 107, reported in two cycles running: Blocked, then
    None. *)
Lemma request_served_once_witness :
  let f := Scenario.fsm CmdrState.Road 100 Scenario.null
             [Scenario.edge 0 1; Scenario.edge 1 2] [105] in
  let nav := Scenario.nav 100 107 true in
  ∃ f1 o f2 f3,
    current_event (api := Scenario.api None) (set_navstate nav f) =
      Ok (CmdrEvent.Blocked, f1) ∧
    control (api := Scenario.api None) nav f = Ok (o, f2) ∧
    old_replan f2 = 107 ∧
    current_event (api := Scenario.api None) (set_navstate nav f2) =
      Ok (CmdrEvent.None, f3).
Proof.
  intros f nav. eexists _, _, _, _. split; [reflexivity|].
  split; [reflexivity|].
  destruct (request_served_once (api := Scenario.api None) nav f
              CmdrEvent.Blocked _ _ _ eq_refl (or_introl eq_refl) eq_refl)
    as [Hold _].
  split; [exact Hold|reflexivity].
Defined.

(** The last checkpoint, 101, is reached while a blocked road is
    reported: the mission is done, and the report is not taken. *)
Lemma finished_has_priority_witness :
  let f := Scenario.fsm CmdrState.Road 100 Scenario.null
             [Scenario.edge 0 1; Scenario.edge 1 2] [101] in
  let nav := Scenario.nav 101 107 true in
  ∃ f2 f3,
    current_event (api := Scenario.api None) (set_navstate nav f) =
      Ok (CmdrEvent.Done, f2) ∧
    control (api := Scenario.api None) nav f =
      Ok ({| behavior := Behavior.Quit |}, f3) ∧
    state f3 = CmdrState.Done ∧
    old_replan f3 = Scenario.null.
Proof.
  intros f nav.
  edestruct (finished_has_priority (api := Scenario.api None) nav f true false)
    as (Hev & f3 & Hctl & Hs & Hold & _);
    [discriminate | reflexivity | reflexivity | ].
  eexists _, f3. split; [exact Hev|]. split; [exact Hctl|].
  split; [exact Hs|exact Hold].
Defined.

(** Checkpoint 101 is reached and no plan to the next one can be made. *)
Lemma wait_means_replan_failed_witness :
  let f := set_navstate (Scenario.nav 101 Scenario.null false)
             (Scenario.fsm CmdrState.Road 100 Scenario.null
                [Scenario.edge 0 1; Scenario.edge 1 2] [101; 105]) in
  ∃ f',
    current_event (api := Scenario.api None) f = Ok (CmdrEvent.Wait, f') ∧
    ∃ new_goal2 f1 f2,
      track_progress (api := Scenario.api None) f =
        Ok (tracked true new_goal2 f1) ∧
      advance_checkpoints (api := Scenario.api None) true new_goal2 f1 =
        (false, f2) ∧
      replan_waypt (navstate f) = old_replan f ∧
      fst (replan_route (Collaborators := Scenario.api None) (cmdr f2)) = false ∧
      f' = snd (cmdr_replan_route (api := Scenario.api None) f2).
Proof.
  intros f. eexists. split; [reflexivity|].
  apply (wait_means_replan_failed (api := Scenario.api None) f).
  reflexivity.
Defined.

(** The same checkpoint with a planner that finds the route on. *)
Lemma checkpoint_asks_for_one_plan_witness :
  let f := Scenario.fsm CmdrState.Road 100 Scenario.null
             [Scenario.edge 0 1; Scenario.edge 1 2] [101; 105] in
  let nav := Scenario.nav 101 Scenario.null false in
  let plan := [Scenario.edge 1 2; Scenario.edge 2 5] in
  ∃ f1 o f',
    current_event (api := Scenario.api (Some plan)) (set_navstate nav f) =
      Ok (CmdrEvent.None, f1) ∧
    control (api := Scenario.api (Some plan)) nav f = Ok (o, f') ∧
    state f' = CmdrState.Road ∧
    route (cmdr f') = plan ∧
    calls f' = [call_next_checkpoint; call_replan_route;
                call_prepare_order Behavior.Go].
Proof.
  intros f nav plan.
  edestruct (checkpoint_asks_for_one_plan (api := Scenario.api (Some plan))
               nav f false)
    as (o & f' & Hev & Hctl & Hs & _ & Hcmdr & Hcalls);
    [reflexivity | discriminate | reflexivity | reflexivity | reflexivity | ].
  eexists _, o, f'. split; [exact Hev|]. split; [exact Hctl|].
  split; [exact Hs|]. split; [by rewrite Hcmdr|exact Hcalls].
Defined.

(** A request to plan again from waypoint 102, with an open road and a
    planner that finds a route: the FSM's last waypoint becomes 102, the
    blockages stay empty and the new route is in place. *)
Lemma request_handling_witness :
  let f := Scenario.fsm CmdrState.Road 100 Scenario.null
             [Scenario.edge 0 1; Scenario.edge 1 2] [105] in
  let nav := Scenario.nav 100 102 false in
  let plan := [Scenario.edge 2 3; Scenario.edge 3 5] in
  ∃ o f',
    control (api := Scenario.api (Some plan)) nav f = Ok (o, f') ∧
    state f' = CmdrState.Road ∧
    route (cmdr f') = plan ∧
    blockages (cmdr f') = [] ∧
    last_waypt (navstate f') = 102 ∧
    calls f' = [call_replan_route; call_prepare_order Behavior.Go].
Proof.
  intros f nav plan.
  edestruct (request_handling (api := Scenario.api (Some plan)) nav f
               false false)
    as (o & f' & Hctl & Hs & _ & Hcmdr & Hlast & Hcalls);
    [reflexivity | discriminate | reflexivity | reflexivity
    | discriminate | discriminate | ].
  exists o, f'. split; [exact Hctl|]. split; [exact Hs|].
  split; [by rewrite Hcmdr|]. split; [by rewrite Hcmdr|].
  split; [exact Hlast|exact Hcalls].
Defined.

(** The vehicle reports waypoint 109, which is not on the plan: the walk
    stops at the last edge and takes its end node, 103, for the position. *)
Lemma tracked_position_witness :
  let f := set_navstate (Scenario.nav 109 Scenario.null false)
             (Scenario.fsm CmdrState.Road 100 Scenario.null
                [Scenario.edge 0 1; Scenario.edge 1 2; Scenario.edge 2 3]
                [105]) in
  ∃ f',
    track_progress (api := Scenario.api None) f = Ok (tracked false false f') ∧
    route (cmdr f') = [Scenario.edge 2 3] ∧
    current_way f' = 103 ∧
    route (cmdr f') `suffix_of` route (cmdr f) ∧
    (current_way f' = last_waypt (navstate f) ∨
     ∃ edge n,
       route (cmdr f') = [edge] ∧
       get_node_by_index (graph (cmdr f)) (endnode_index edge) = Some n ∧
       current_way f' = id n).
Proof.
  intros f. eexists. split; [reflexivity|]. split; [reflexivity|].
  split; [reflexivity|].
  edestruct (tracked_position (api := Scenario.api None) f false false)
    as (_ & Hsuffix & _ & Hway); [reflexivity|].
  split; [exact Hsuffix|exact Hway].
Defined.


(** A cycle on the road, with a Commander whose orders carry the behaviour
    asked for. *)
Lemma order_tells_state_witness :
  let f := Scenario.fsm CmdrState.Road 100 Scenario.null
             [Scenario.edge 0 1; Scenario.edge 1 2] [105] in
  let nav := Scenario.nav 101 Scenario.null false in
  (∀ b c, behavior (fst (prepare_order (Collaborators := Scenario.api None)
                           b c)) = b) ∧
  ∃ o f',
    control (api := Scenario.api None) nav f = Ok (o, f') ∧
    behavior o = Behavior.Go ∧
    state f' = CmdrState.Road.
Proof.
  intros f nav. split; [reflexivity|].
  eexists _, _. split; [reflexivity|]. split; [reflexivity|].
  exact (order_tells_state (api := Scenario.api None) nav f _ _
           (λ b c, eq_refl) eq_refl).
Defined.

(** A cycle that uses the whole budget: two checkpoints passed, one plan
    asked for, one order prepared. *)
Lemma cycle_call_budget_witness :
  let f := Scenario.fsm CmdrState.Road 100 Scenario.null
             [Scenario.edge 0 1; Scenario.edge 1 2; Scenario.edge 2 3]
             [101; 102; 103] in
  let nav := Scenario.nav 102 Scenario.null false in
  ∃ o f',
    control (api := Scenario.api None) nav f = Ok (o, f') ∧
    calls f' = [call_next_checkpoint; call_next_checkpoint;
                call_replan_route; call_prepare_order Behavior.Go] ∧
    (count_call call_next_checkpoint (calls f') ≤
       count_call call_next_checkpoint (calls f) + 2)%nat ∧
    (count_call call_replan_route (calls f') ≤
       count_call call_replan_route (calls f) + 1)%nat ∧
    (count_call (call_prepare_order Behavior.Go) (calls f') ≤
       count_call (call_prepare_order Behavior.Go) (calls f) + 1)%nat.
Proof.
  intros f nav. eexists _, _. split; [reflexivity|]. split; [reflexivity|].
  exact (cycle_call_budget (api := Scenario.api None) nav f _ _ eq_refl).
Defined.

(** ** Runs of the map lanes driver *)

Section MapRuns.
Import MapLanesDriver.
#[local] Abbreviation M0 := MapScenario.messages.
#[local] Abbreviation R0 := MapScenario.road_map.

(** The three polygons give six markers: three arrows, two line lists and
    one cylinder. *)
Lemma markers_published_witness :
  let d := MapScenario.fresh MapScenario.three_quads in
  let lanes := MapScenario.lanes_of MapScenario.three_quads in
  ∃ markers,
    publishMapMarks (M := M0) (R := R0) 1 5 "local_roadmap" 10 lanes d =
      ([visualization_marker_array markers],
       set_marks_msg markers d) ∧
    length markers = 6%nat.
Proof.
  intros d lanes.
  destruct (markers_published (M := M0) (R := R0) 1 5 "local_roadmap" 10 lanes d)
    as (markers & Hpub & _ & Hlen); [discriminate | reflexivity | ].
  exists markers. split; [exact Hpub | exact Hlen].
Defined.

Lemma marker_keys_unique_witness :
  let d := MapScenario.fresh MapScenario.three_quads in
  let lanes := MapScenario.lanes_of MapScenario.three_quads in
  ∃ markers d',
    publishMapMarks (M := M0) (R := R0) 1 5 "local_roadmap" 10 lanes d =
      ([visualization_marker_array markers], d') ∧
    map id markers = [0; 0; 1; 1; 1; 2] ∧
    NoDup (map (λ m, (ns m, id m)) markers).
Proof.
  intros d lanes. eexists _, _. split; [reflexivity|].
  split; [reflexivity|].
  eapply (marker_keys_unique (M := M0) (R := R0) 1 5 "local_roadmap" 10 lanes d);
    reflexivity.
Defined.

Lemma markers_by_type_witness :
  let d := MapScenario.fresh MapScenario.three_quads in
  let lanes := MapScenario.lanes_of MapScenario.three_quads in
  ∃ markers d',
    publishMapMarks (M := M0) (R := R0) 1 5 "local_roadmap" 10 lanes d =
      ([visualization_marker_array markers], d') ∧
    map position
      (filter (λ m, type m = ARROW) markers) =
      [10; 20; 30] ∧
    map points
      (filter (λ m, type m = LINE_LIST) markers) =
      [[9; 11; 12; 8]; [19; 21; 22; 18]] ∧
    map (λ m, (position m, color m))
      (filter (λ m, type m = CYLINDER) markers) =
      [(20, {| r := 1; g := 0; b := 0; a := 13421773 # 16777216 |})].
Proof.
  intros d lanes. eexists _, _. split; [reflexivity|].
  edestruct (markers_by_type (M := M0) (R := R0) 1 5 "local_roadmap" 10 lanes d)
    as (Harrows & Hlines & Hcyl); [reflexivity | reflexivity | ].
  split; [exact Harrows|]. split; [exact Hlines | exact Hcyl].
Defined.

(** Odometry of time 7 at position 3 has arrived.  With the three
    polygons the local map goes out under that time, followed by its six
    markers; with an empty road map [getLanes] returns 1 and nothing goes
    out. *)
Lemma local_map_publication_witness :
  let d := processOdom (MapScenario.odom 7 3)
             (MapScenario.fresh MapScenario.three_quads) in
  let d0 := processOdom (MapScenario.odom 7 3) (MapScenario.fresh []) in
  (∃ lanes markers d',
     publishLocalMap (M := M0) (R := R0) 1 9 d =
       ([roadmap_local lanes; visualization_marker_array markers], d') ∧
     lanes_stamp lanes = 7 ∧
     polygons lanes = MapScenario.three_quads ∧
     length markers = 6%nat ∧
     Forall (λ m : Marker (M := M0),
               stamp m = 9 ∧ frame_id m = "/map" ∧ lifetime m = 10) markers) ∧
  publishLocalMap (M := M0) (R := R0) 1 9 d0 = ([], d0).
Proof.
  intros d d0. split.
  - destruct (local_map_publication (M := M0) (R := R0) 1 9 d 0
                (MapScenario.lanes_of MapScenario.three_quads)
                MapScenario.three_quads eq_refl eq_refl)
      as (_ & _ & Hpub).
    destruct (Hpub eq_refl ltac:(discriminate))
      as (markers & Hout & Hlen & Hall).
    eexists _, markers, _. split; [exact Hout|].
    split; [reflexivity|]. split; [reflexivity|].
    split; [exact Hlen|exact Hall].
  - destruct (local_map_publication (M := M0) (R := R0) 1 9 d0 1
                (MapScenario.lanes_of []) [] eq_refl eq_refl)
      as (Hnone & _).
    exact (Hnone ltac:(discriminate)).
Defined.

(** Two turns without odometry: only the global map has been sent. *)
Lemma no_local_map_before_odometry_witness :
  let d := MapScenario.fresh MapScenario.three_quads in
  let turns := [MapScenario.turn_at 1 []; MapScenario.turn_at 2 []] in
  ∃ lanes d',
    Spin (M := M0) (R := R0) 0 turns d = ([roadmap_global lanes], d') ∧
    lanes_frame_id lanes = "/map" ∧
    polygons lanes = MapScenario.three_quads.
Proof.
  intros d turns.
  assert (Forall (λ t : turn (M := M0), incoming t = []) turns) as Hidle
    by (repeat constructor).
  eexists _, _. split.
  - exact (no_local_map_before_odometry (M := M0) (R := R0) 0 turns d
             eq_refl Hidle).
  - split; reflexivity.
Defined.

(** Two odometry messages arrive in one turn: the local map is that of the
    second. *)
Lemma local_map_follows_odometry_witness :
  let d := MapScenario.fresh MapScenario.three_quads in
  let t := MapScenario.turn_at 9 [MapScenario.odom 6 2; MapScenario.odom 7 3] in
  ∃ lanes,
    roadmap_local lanes ∈ (spin_once t d).1 ∧
    lanes_stamp lanes = 7.
Proof.
  intros d t. eexists. split; [left|].
  destruct (local_map_follows_odometry t d
              [MapScenario.odom 6 2] (MapScenario.odom 7 3) _ eq_refl
              (list_elem_of_here _ _)) as [Hstamp _].
  exact Hstamp.
Defined.
End MapRuns.
